(** * Coarse-map navigation on a turtlebot: perception and path tracking

    A shallow embedding of the Python sources of [cmn_pkg]:

    - [scripts/pure_pursuit.py]   (class [PurePursuit])
    - [motion_planning_node.py]   ([publish_command], [plan_path_to_goal])
    - [locobot_interface.py]      ([get_lidar])
    - [runner_node.py]            ([get_pano_meas], the two capture buffers,
                                   [set_global_params])
    - [scripts/cmn/cmn_visualizer.py]  ([normalize_belief_for_visualization])

    Numbers.  Python floats are embedded as exact rationals ([Q]); rounding,
    overflow, infinities and NaN are outside the model, except that
    [np.mean] of an empty block (NaN in numpy) is [None].  The transcendental
    functions of the math library ([sqrt], [atan2], [sin], [cos]) have no exact
    rational counterpart and are operations of the class [MathLib]; every
    definition that calls them is parametric in it.

    Exceptions.  Python raises [ZeroDivisionError] on a division by zero and
    [ValueError] on the square root of a negative number; fallible code
    returns a [result]. *)

From Stdlib Require Import ZArith QArith Qabs Qminmax Qround Lqa Lia String.
From stdpp Require Import base list.

(** ** Python values and exceptions *)

Inductive exn : Type :=
  | ZeroDivisionError
  | ValueError.

Inductive result (A : Type) : Type :=
  | Ok (a : A)
  | Raise (e : exn).
Arguments Ok {A} a.
Arguments Raise {A} e.

#[global] Instance result_ret : MRet result := fun _ a => Ok a.
#[global] Instance result_bind : MBind result := fun _ _ f m =>
  match m with
  | Ok a => f a
  | Raise e => Raise e
  end.

Definition is_ok {A} (r : result A) : bool :=
  match r with Ok _ => true | Raise _ => false end.

(** [x < y] on floats, as a boolean. *)
Definition Qltb (x y : Q) : bool := negb (Qle_bool y x).

(** [x / y]: true division, raising on a zero divisor. *)
Definition pydiv (x y : Q) : result Q :=
  if Qeq_bool y 0 then Raise ZeroDivisionError else Ok (x / y)%Q.

(** [int(x)]: truncation towards zero. *)
Definition py_int (x : Q) : Z := Z.quot (Qnum x) (Zpos (Qden x)).

(** The math library.  [sqrt_fn x] is the square root of a non-negative [x];
    the other three are the functions of the same name. *)
Class MathLib : Type := {
  sqrt_fn : Q -> Q;
  atan2 : Q -> Q -> Q;
  np_sin : Q -> Q;
  np_cos : Q -> Q;
}.

(** [math.sqrt]: raises on a negative argument. *)
Definition math_sqrt `{MathLib} (x : Q) : result Q :=
  if Qltb x 0 then Raise ValueError else Ok (sqrt_fn x).

(** [x ** (1/2)], used on sums of squares only. *)
Definition pow_half `{MathLib} (x : Q) : Q := sqrt_fn x.

(** [math.pi] and [math.tau]: the binary64 values, which are rationals. *)
Definition pi : Q := 884279719003555 # 281474976710656.
Definition tau : Q := 2 * pi.

(** Nearest integer, ties to even. *)
Definition round_half_even (q : Q) : Z :=
  let f := Qfloor q in
  match (q - inject_Z f ?= 1 # 2)%Q with
  | Lt => f
  | Gt => (f + 1)%Z
  | Eq => if Z.even f then f else (f + 1)%Z
  end.

(** [math.remainder x y]: the IEEE remainder [x - n*y], [n] the integer
    nearest to [x/y]. *)
Definition remainder (x y : Q) : result Q :=
  if Qeq_bool y 0 then Raise ValueError
  else Ok (x - inject_Z (round_half_even (x / y)) * y)%Q.

(** ** [scripts/pure_pursuit.py] *)

Module PurePursuit.
Local Open Scope Q_scope.

(** A waypoint [[x, y]] and a vehicle pose [(x, y, yaw)]. *)
Definition point : Type := Q * Q.
Record pose : Type := Pose { pose_x : Q; pose_y : Q; pose_yaw : Q }.

(** The class attributes. *)
Record state : Type := State {
  path_meters : list point;
  integ : Q;
  err_prev : Q;
  last_time : Q;
}.

Definition lookahead_dist_init : Q := 0.2.
Definition lookahead_dist_max : Q := 2.

(** The attributes as the class statement leaves them, with a given path. *)
Definition initial (path : list point) : state :=
  {| path_meters := path; integ := 0; err_prev := 0; last_time := 0 |}.

Definition set_path (path : list point) (st : state) : state :=
  {| path_meters := path; integ := integ st;
     err_prev := err_prev st; last_time := last_time st |}.
Definition set_integ (v : Q) (st : state) : state :=
  {| path_meters := path_meters st; integ := v;
     err_prev := err_prev st; last_time := last_time st |}.
Definition set_err_prev (v : Q) (st : state) : state :=
  {| path_meters := path_meters st; integ := integ st;
     err_prev := v; last_time := last_time st |}.
Definition set_last_time (v : Q) (st : state) : state :=
  {| path_meters := path_meters st; integ := integ st;
     err_prev := err_prev st; last_time := v |}.

Section WithMath.
Context `{MathLib}.

(** *** [pare_path] *)

(** [r] of line 78: the distance from the vehicle to a waypoint. *)
Definition dist_to (cur : pose) (p : point) : Q :=
  pow_half ((pose_x cur - p.1) ^ 2 + (pose_y cur - p.2) ^ 2).

Definition near (cur : pose) (p : point) : bool :=
  Qltb (dist_to cur p) 0.15.

(** The loop [for i in range(len(path))]: [todo] are the waypoints
    [path[i:]] still to be visited. *)
Fixpoint pare_loop (cur : pose) (path todo : list point) (i : nat)
  : list point :=
  match todo with
  | [] => path
  | p :: todo' =>
      if near cur p
      then drop (S i) path            (* del path[0:i+1]; return *)
      else pare_loop cur path todo' (S i)
  end.

Definition pare_path (cur : pose) (path : list point) : list point :=
  pare_loop cur path path 0.

(** *** [choose_lookahead_pt] *)

Definition valid (q : Q) : bool := Qle_bool 0 q && Qle_bool q 1.

(** One iteration of the loop over segments, for the segment from
    [p0 = path[i-1]] to [p1 = path[i]].  [Ok None] is a [continue];
    [Ok (Some pt)] assigns [lookahead_pt]. *)
Definition segment_candidate (cur : pose) (lookahead_dist : Q)
    (p0 p1 : point) : result (option point) :=
  let diff := (p1.1 - p0.1, p1.2 - p0.2) in
  let v1 := (p0.1 - pose_x cur, p0.2 - pose_y cur) in
  let a := diff.1 ^ 2 + diff.2 ^ 2 in
  let b := 2 * (v1.1 * diff.1 + v1.2 * diff.2) in
  let c := v1.1 ^ 2 + v1.2 ^ 2 - lookahead_dist ^ 2 in
  match math_sqrt (b ^ 2 - 4 * a * c) with
  | Raise _ => Ok None                       (* except: continue *)
  | Ok discr =>
      q0 ← pydiv (- b - discr) (2 * a);
      q1 ← pydiv (- b + discr) (2 * a);
      if valid q0
      then Ok (Some (p0.1 + q0 * diff.1, p0.2 + q0 * diff.2))
      else if valid q1
      then Ok (Some (p0.1 + q1 * diff.1, p0.2 + q1 * diff.2))
      else Ok None
  end.

(** [for i in range(1, len(path))], with [prev = path[i-1]] and
    [todo = path[i:]]. *)
Fixpoint segment_loop (cur : pose) (lookahead_dist : Q) (prev : point)
    (todo : list point) (lookahead_pt : option point)
  : result (option point) :=
  match todo with
  | [] => Ok lookahead_pt
  | p :: todo' =>
      cand ← segment_candidate cur lookahead_dist prev p;
      match cand with
      | Some pt => segment_loop cur lookahead_dist p todo' (Some pt)
      | None => segment_loop cur lookahead_dist p todo' lookahead_pt
      end
  end.

Definition choose_lookahead_pt (cur : pose) (lookahead_dist : Q)
    (path : list point) : result (option point) :=
  match path with
  | [p] => Ok (Some p)
  | [] => Ok None
  | p0 :: todo => segment_loop cur lookahead_dist p0 todo None
  end.

(** *** [compute_command] *)

(** The [while] loop of lines 37-39.  It is run with [fuel]; [None] means
    the fuel ran out before the loop ended. *)
Fixpoint lookahead_loop (fuel : nat) (cur : pose) (path : list point)
    (lookahead_pt : option point) (lookahead_dist : Q)
  : option (result (option point)) :=
  match lookahead_pt with
  | Some _ => Some (Ok lookahead_pt)
  | None =>
      if Qle_bool lookahead_dist lookahead_dist_max then
        match fuel with
        | O => None
        | S fuel' =>
            match choose_lookahead_pt cur lookahead_dist path with
            | Raise e => Some (Raise e)
            | Ok pt =>
                lookahead_loop fuel' cur path pt (lookahead_dist * 1.25)
            end
        end
      else Some (Ok None)
  end.

(** Eleven radii, 0.2 * 1.25^k for k = 0..10, are at most 2; the twelfth
    test of the loop condition fails (lemma [lookahead_loop_fuel]). *)
Definition lookahead_fuel : nat := 11.

(** Lines 34-43: the lookahead point the command steers to, on a
    non-empty path [p0 :: rest]. *)
Definition lookahead_target (cur : pose) (p0 : point) (rest : list point)
  : result point :=
  match lookahead_loop lookahead_fuel cur (p0 :: rest) None
          lookahead_dist_init with
  | Some (Ok (Some pt)) => Ok pt
  | Some (Ok None) => Ok p0                  (* path_meters[0] *)
  | Some (Raise e) => Raise e
  | None => Ok p0
  end.

(** [compute_command cur], where [t1] and [t2] are the values of the
    calls to [time()] on lines 53 and 54.  The state returned is the one
    the call leaves behind, also when it raises. *)
Definition compute_command (cur : pose) (t1 t2 : Q) (st : state)
  : result (Q * Q) * state :=
  let st := set_path (pare_path cur (path_meters st)) st in
  match path_meters st with
  | [] => (Ok (0, 0), st)
  | p0 :: rest =>
      match lookahead_target cur p0 rest with
      | Raise e => (Raise e, st)
      | Ok lookahead_pt =>
          let gb := atan2 (lookahead_pt.2 - pose_y cur)
                          (lookahead_pt.1 - pose_x cur) in
          match remainder (gb - pose_yaw cur) tau with
          | Raise e => (Raise e, st)
          | Ok beta =>
              let dt := if Qeq_bool (last_time st) 0 then 0
                        else t1 - last_time st in
              let st := set_last_time t2 st in
              let st := set_integ (integ st + beta * dt) st in
              let P := 0.5 * beta in
              let I := 0.0 * integ st in
              match pydiv (0.0 * (beta - err_prev st)) dt with
              | Raise e => (Raise e, st)
              | Ok D =>
                  let ang := P + I + D in
                  let fwd := 0.02 * (1 - Qabs (beta / pi)) ^ 12 + 0.01 in
                  let st := set_err_prev beta st in
                  (Ok (fwd, ang), st)
              end
          end
      end
  end.

(** Successive calls on one path (no replanning in between): the poses
    and clock readings of the calls, in order. *)
Fixpoint compute_commands (calls : list (pose * Q * Q)) (st : state)
  : state :=
  match calls with
  | [] => st
  | (cur, t1, t2) :: calls' =>
      compute_commands calls' (compute_command cur t1 t2 st).2
  end.

(** [candidate_of cur L (p0, p1)]: what the loop of
    [choose_lookahead_pt] computes on the segment from [p0] to [p1]. *)
Definition candidate_of (cur : pose) (lookahead_dist : Q)
    (s : point * point) : result (option point) :=
  segment_candidate cur lookahead_dist s.1 s.2.

End WithMath.

(** *** Notions the statements about the controller use *)

(** The radius of the [k]-th lookahead search: the initial radius grown
    [k] times by 1.25, as line 39 computes it. *)
Definition radius (k : nat) : Q :=
  Nat.iter k (fun d => d * 1.25) lookahead_dist_init.

(** The consecutive waypoint pairs of a path, in order. *)
Definition segments (path : list point) : list (point * point) :=
  zip path (tail path).

(** The coefficients [a], [b], [c] of lines 101-103 and the discriminant
    of line 105. *)
Definition quad_a (p0 p1 : point) : Q :=
  (p1.1 - p0.1) ^ 2 + (p1.2 - p0.2) ^ 2.
Definition quad_b (cur : pose) (p0 p1 : point) : Q :=
  2 * ((p0.1 - pose_x cur) * (p1.1 - p0.1) +
       (p0.2 - pose_y cur) * (p1.2 - p0.2)).
Definition quad_c (cur : pose) (lookahead_dist : Q) (p0 : point) : Q :=
  (p0.1 - pose_x cur) ^ 2 + (p0.2 - pose_y cur) ^ 2 - lookahead_dist ^ 2.
Definition discriminant (cur : pose) (lookahead_dist : Q) (p0 p1 : point)
  : Q :=
  quad_b cur p0 p1 ^ 2 - 4 * quad_a p0 p1 * quad_c cur lookahead_dist p0.

(** The point at fraction [t] of the segment from [p0] to [p1]. *)
Definition along (p0 p1 : point) (t : Q) : point :=
  (p0.1 + t * (p1.1 - p0.1), p0.2 + t * (p1.2 - p0.2)).


(** The squared distance from the pose to a waypoint. *)
Definition dist2 (cur : pose) (p : point) : Q :=
  (pose_x cur - p.1) ^ 2 + (pose_y cur - p.2) ^ 2.

(** [p] is a waypoint of [path] nearest to the pose. *)
Definition nearest (cur : pose) (path : list point) (p : point) : Prop :=
  p ∈ path /\ forall q, q ∈ path -> dist2 cur p <= dist2 cur q.

End PurePursuit.

(** ** [motion_planning_node.py] *)

Module motion_planning_node.
Local Open Scope Q_scope.
Import PurePursuit.

(** Modelled from the spec: [clamp] is imported from
    [scripts/cmn_utilities.py], which is not among the sources.  The spec
    gives [clamp(value, min, max)] as a pure function that keeps a value
    within the limits. *)
Definition clamp (value min_value max_value : Q) : Q :=
  if Qltb value min_value then min_value
  else if Qltb max_value value then max_value
  else value.

(** The [constraints] section of the configuration. *)
Record constraints : Type := Constraints {
  g_max_fwd_cmd : Q;
  g_max_ang_cmd : Q;
}.

Section WithConstraints.
Variable cfg : constraints.

(** [publish_command]: the [Twist] it publishes, as (linear.x,
    angular.z).  It logs the command at level info only. *)
Definition publish_command (fwd ang : Q) : Q * Q :=
  let fwd := clamp fwd 0 (g_max_fwd_cmd cfg) in
  let ang := clamp ang (- g_max_ang_cmd cfg) (g_max_ang_cmd cfg) in
  (fwd, ang).

(** Lines 168-172 of [plan_path_to_goal]: the clamped command, and
    whether [rospy.logwarn] was called. *)
Definition keep_within_constraints (fwd ang : Q) : Q * Q * bool :=
  let fwd_clamped := clamp fwd 0 (g_max_fwd_cmd cfg) in
  let ang_clamped := clamp ang (- g_max_ang_cmd cfg) (g_max_ang_cmd cfg) in
  let warned :=
    negb (Qeq_bool fwd fwd_clamped) || negb (Qeq_bool ang ang_clamped) in
  (fwd_clamped, ang_clamped, warned).

(** [plan_path_to_goal], given what the planner answered: [None] when A*
    found no path, otherwise the path in meters, start first. *)
Definition plan_path_to_goal `{MathLib} (planned : option (list point))
    (veh_pose_est : pose) (t1 t2 : Q) (st : state)
  : result (Q * Q * bool) * state :=
  match planned with
  | None => (Ok (0, 0, false), st)
  | Some path =>
      let st := set_path path st in
      match compute_command veh_pose_est t1 t2 st with
      | (Raise e, st) => (Raise e, st)
      | (Ok (fwd, ang), st) => (Ok (keep_within_constraints fwd ang), st)
      end
  end.


(** [get_localization_est]: the command it publishes.  [goal] is [None]
    when [goal_pos_px] is [None], and otherwise holds what the planner
    answers for the goal. *)
Definition get_localization_est `{MathLib}
    (goal : option (option (list point))) (pose_est : pose) (t1 t2 : Q)
    (st : state) : result (Q * Q) * state :=
  match goal with
  | None =>
      (Ok (publish_command (g_max_fwd_cmd cfg) (g_max_ang_cmd cfg)), st)
  | Some planned =>
      match plan_path_to_goal planned pose_est t1 t2 st with
      | (Raise e, st) => (Raise e, st)
      | (Ok (fwd, ang, _), st) => (Ok (publish_command fwd ang), st)
      end
  end.

End WithConstraints.
End motion_planning_node.

(** ** Arrays *)

(** A two-dimensional numpy array of floats, row-major. *)
Abbreviation grid := (list (list Q)).

(** A slice [start:stop] with non-negative bounds; [stop = None] is [start:]. *)
Record slice : Type := Slice { start : nat; stop : option nat }.

Definition upto (n : nat) : slice := Slice 0 (Some n).      (* [:n] *)
Definition from (n : nat) : slice := Slice n None.          (* [n:] *)
Definition between (a b : nat) : slice := Slice a (Some b). (* [a:b] *)

Definition in_slice (s : slice) (i : nat) : bool :=
  (start s <=? i)%nat &&
  match stop s with Some e => (i <? e)%nat | None => true end.

Definition py_slice {A} (s : slice) (l : list A) : list A :=
  match stop s with
  | Some e => take (e - start s) (drop (start s) l)
  | None => drop (start s) l
  end.

(** [a[rs, cs]] *)
Definition block (rs cs : slice) (a : grid) : grid :=
  py_slice cs <$> py_slice rs a.

(** [a[rs, cs] = v] *)
Definition assign (rs cs : slice) (v : Q) (a : grid) : grid :=
  imap (fun i row =>
          if in_slice rs i
          then imap (fun j x => if in_slice cs j then v else x) row
          else row) a.

(** [a[r, c]], for indices within the array. *)
Definition cell (a : grid) (r c : nat) : option Q :=
  row ← a !! r; row !! c.

Definition np_ones (rows cols : nat) : grid :=
  replicate rows (replicate cols 1%Q).

(** An array of shape [(rows, cols)]. *)
Definition has_shape (rows cols : nat) (a : grid) : Prop :=
  length a = rows /\ Forall (fun row => length row = cols) a.

(** Two blocks that share no cell. *)
Definition apart (rs cs rs' cs' : slice) : Prop :=
  (forall i, in_slice rs i = true -> in_slice rs' i = false) \/
  (forall j, in_slice cs j = true -> in_slice cs' j = false).

Definition Qsum (l : list Q) : Q := foldr Qplus 0%Q l.

(** [np.mean a]; [None] is the NaN numpy gives on an empty array. *)
Definition np_mean (a : grid) : option Q :=
  match concat a with
  | [] => None
  | x :: xs => Some (Qsum (x :: xs) / inject_Z (Z.of_nat (length (x :: xs))))%Q
  end.

(** ** [locobot_interface.py] *)

Module locobot_interface.
Local Open Scope Q_scope.

Record LaserScan : Type := {
  angle_min : Q;
  angle_increment : Q;
  range_min : Q;
  range_max : Q;
  ranges : list Q;
}.

(** The generator of the [bresenham] package, which the node imports:
    the cells of the line from [(x0, y0)] to [(x1, y1)]. *)
Fixpoint bresenham_steps (n : nat) (x0 y0 xx xy yx yy dx dy : Z)
    (x y D : Z) : list (Z * Z) :=
  match n with
  | O => []
  | S n' =>
      ((x0 + x * xx + y * yx)%Z, (y0 + x * xy + y * yy)%Z) ::
      (let '(y, D) := if (0 <=? D)%Z then ((y + 1)%Z, (D - 2 * dx)%Z)
                      else (y, D) in
       bresenham_steps n' x0 y0 xx xy yx yy dx dy (x + 1)%Z y (D + 2 * dy)%Z)
  end.

Definition bresenham_line (x0 y0 x1 y1 : Z) : list (Z * Z) :=
  let dx := (x1 - x0)%Z in
  let dy := (y1 - y0)%Z in
  let xsign := if (0 <? dx)%Z then 1%Z else (-1)%Z in
  let ysign := if (0 <? dy)%Z then 1%Z else (-1)%Z in
  let dx := Z.abs dx in
  let dy := Z.abs dy in
  let '(dx, dy, xx, xy, yx, yy) :=
    if (dy <? dx)%Z then (dx, dy, xsign, 0%Z, 0%Z, ysign)
    else (dy, dx, 0%Z, ysign, xsign, 0%Z) in
  bresenham_steps (Z.to_nat (dx + 1)) x0 y0 xx xy yx yy dx dy
    0%Z 0%Z (2 * dy - dx)%Z.

Section WithConfig.
Context `{MathLib}.
(** The line rasteriser. *)
Variable bresenham : Z -> Z -> Z -> Z -> list (Z * Z).
(** The [lidar] section of the configuration. *)
Variable g_local_occ_size : nat.
Variable g_local_occ_resolution : Q.

(** The array [local_occ_meas] keeps the shape it is created with. *)
Definition shape0 : Z := Z.of_nat g_local_occ_size.
Definition shape1 : Z := Z.of_nat g_local_occ_size.

(** The test of line 50. *)
Definition in_bounds (rc : Z * Z) : bool :=
  (0 <=? rc.1)%Z && (0 <=? rc.2)%Z && (rc.1 <? shape0)%Z && (rc.2 <? shape1)%Z.

(** [a[r, c] = v], for [r] and [c] within the array. *)
Definition set_cell (a : grid) (rc : Z * Z) (v : Q) : grid :=
  alter (fun row => <[Z.to_nat rc.2 := v]> row) (Z.to_nat rc.1) a.

(** The loop of lines 47-53 over the cells of one line. *)
Fixpoint mark_ray (local_occ_meas : grid) (cells : list (Z * Z)) : grid :=
  match cells with
  | [] => local_occ_meas
  | rc :: cells' =>
      if in_bounds rc
      then mark_ray (set_cell local_occ_meas rc 0) cells'
      else local_occ_meas                                  (* break *)
  end.

(** Lines 38-46: the end points of the line of beam [i], which has range
    [range_i]. *)
Definition beam_ends (msg : LaserScan) (max_range_px : Q) (i : nat)
    (range_i : Q) : result (Z * Z * (Z * Z)) :=
  let center_r := (shape0 / 2)%Z in
  let center_c := (shape1 / 2)%Z in
  let angle := angle_min msg + inject_Z (Z.of_nat i) * angle_increment msg in
  dist_px ← pydiv range_i g_local_occ_resolution;
  let r_hit := (center_r + py_int (dist_px * np_sin angle))%Z in
  let c_hit := (center_c - py_int (dist_px * np_cos angle))%Z in
  let r_max_range := (center_r + py_int (max_range_px * np_sin angle))%Z in
  let c_max_range := (center_c - py_int (max_range_px * np_cos angle))%Z in
  Ok ((r_hit, c_hit), (r_max_range, c_max_range)).

Definition valid_range (msg : LaserScan) (range_i : Q) : bool :=
  negb (Qltb range_i (range_min msg) || Qltb (range_max msg) range_i).

(** The loop of lines 32-53, with [todo = msg.ranges[i:]]. *)
Fixpoint beam_loop (msg : LaserScan) (max_range_px : Q) (i : nat)
    (todo : list Q) (local_occ_meas : grid) : result grid :=
  match todo with
  | [] => Ok local_occ_meas
  | range_i :: todo' =>
      if valid_range msg range_i then
        ends ← beam_ends msg max_range_px i range_i;
        let '((r_hit, c_hit), (r_max_range, c_max_range)) := ends in
        beam_loop msg max_range_px (S i) todo'
          (mark_ray local_occ_meas
             (bresenham r_hit c_hit r_max_range c_max_range))
      else beam_loop msg max_range_px (S i) todo' local_occ_meas
  end.

(** Lines 59-61. *)
Definition front_cell_block (local_occ_meas : grid) : grid :=
  let n := g_local_occ_size in
  block (between (n / 3) (2 * n / 3)) (from (2 * n / 3)) local_occ_meas.

Definition detects_wall (local_occ_meas : grid) : bool :=
  match np_mean (front_cell_block local_occ_meas) with
  | Some front_cell_mean => Qle_bool front_cell_mean 0.75
  | None => false
  end.

(** [get_lidar msg]: the values it leaves in [g_lidar_local_occ_meas] and
    [g_lidar_detects_robot_facing_wall]. *)
Definition get_lidar (msg : LaserScan) : result (grid * bool) :=
  let local_occ_meas := np_ones g_local_occ_size g_local_occ_size in
  max_range_px ← pydiv (range_max msg) g_local_occ_resolution;
  local_occ_meas ← beam_loop msg max_range_px 0 (ranges msg) local_occ_meas;
  Ok (local_occ_meas, detects_wall local_occ_meas).

(** *** Notions the statements about the ray caster use *)

(** The cells of a line up to, and without, the first one that is not
    within the array. *)
Fixpoint clip (cells : list (Z * Z)) : list (Z * Z) :=
  match cells with
  | [] => []
  | rc :: cells' => if in_bounds rc then rc :: clip cells' else []
  end.

(** The clipped line of beam [i]: from its hit cell to its max-range
    cell. *)
Definition traced (msg : LaserScan) (max_range_px : Q) (i : nat)
    (range_i : Q) : list (Z * Z) :=
  match beam_ends msg max_range_px i range_i with
  | Ok ((r_hit, c_hit), (r_max_range, c_max_range)) =>
      clip (bresenham r_hit c_hit r_max_range c_max_range)
  | Raise _ => []
  end.

(** Cell [rc] lies on the clipped line of a beam of [todo] whose range
    is valid; [todo] are the readings from index [i] on. *)
Definition hit_by (msg : LaserScan) (max_range_px : Q) (i : nat)
    (todo : list Q) (rc : Z * Z) : Prop :=
  exists j range_j,
    todo !! j = Some range_j /\
    range_min msg <= range_j <= range_max msg /\
    rc ∈ traced msg max_range_px (i + j) range_j.

End WithConfig.

(** The scan [msg] with other readings. *)
Definition with_ranges (msg : LaserScan) (readings : list Q) : LaserScan :=
  {| angle_min := angle_min msg;
     angle_increment := angle_increment msg;
     range_min := range_min msg;
     range_max := range_max msg;
     ranges := readings |}.

End locobot_interface.

(** ** [runner_node.py] *)

Module runner_node.
Local Open Scope Q_scope.

(** *** The local occupancy of [get_pano_meas] (lines 261-293) *)

(** [np.min([a, b], axis=0)] on arrays of one shape. *)
Definition np_min2 (a b : grid) : grid := zip_with (zip_with Qmin) a b.

Definition occ_thresh : Q := 0.1.

(** One of the four corner checks: [rs] and [cs] select the block. *)
Definition repair_block (rs cs : slice) (local_occ_meas : grid) : grid :=
  match np_mean (block rs cs local_occ_meas) with
  | Some mean =>
      let occ_percent := 1 - mean in
      if Qle_bool occ_thresh occ_percent
      then assign rs cs 0 local_occ_meas
      else local_occ_meas
  | None => local_occ_meas
  end.

(** Lines 270-293. *)
Definition corner_repair (local_occ_meas : grid) : grid :=
  let div := 3%nat in
  let one_third := (length local_occ_meas / div)%nat in
  let two_thirds := ((div - 1) * length local_occ_meas / div)%nat in
  let local_occ_meas :=                                   (* top left *)
    repair_block (upto one_third) (upto one_third) local_occ_meas in
  let local_occ_meas :=                                   (* top right *)
    repair_block (upto one_third) (from two_thirds) local_occ_meas in
  let local_occ_meas :=                                   (* bottom right *)
    repair_block (from two_thirds) (from two_thirds) local_occ_meas in
  let local_occ_meas :=                                   (* bottom left *)
    repair_block (from two_thirds) (upto one_third) local_occ_meas in
  local_occ_meas.

(** Lines 261-293, given the image rotation of [scripts/basic_types.py]
    (not among the sources) and the four local occupancies read from the
    depth data. *)
Definition pano_local_occ (rotate_image_to_north : grid -> Q -> grid)
    (local_occ_east local_occ_south local_occ_west local_occ_north : grid)
  : grid :=
  let rotated_local_occ_south := rotate_image_to_north local_occ_south 0 in
  let rotated_local_occ_west :=
    rotate_image_to_north local_occ_west (- pi / 2) in
  let rotated_local_occ_north := rotate_image_to_north local_occ_north pi in
  let local_occ_meas :=
    np_min2 (np_min2 (np_min2 local_occ_east rotated_local_occ_south)
               rotated_local_occ_west) rotated_local_occ_north in
  corner_repair local_occ_meas.

(** *** Notions the statements about the corner repair use *)

(** The four corner blocks of an array with [rows] rows, as row and column
    slices: top left, top right, bottom right, bottom left. *)
Definition corners (rows : nat) : list (slice * slice) :=
  let one_third := (rows / 3)%nat in
  let two_thirds := (2 * rows / 3)%nat in
  [(upto one_third, upto one_third); (upto one_third, from two_thirds);
   (from two_thirds, from two_thirds); (from two_thirds, upto one_third)].



(** The test of [repair_block], as a boolean. *)
Definition crowdedb (rs cs : slice) (a : grid) : bool :=
  match np_mean (block rs cs a) with
  | Some mean => Qle_bool occ_thresh (1 - mean)
  | None => false
  end.

(** *** The capture buffers *)

(** The two sensor streams.  A measurement is identified by its arrival
    number: the [n]-th message the node receives, counting both streams
    from 0. *)
Inductive sensor : Type := RGB | Depth.

Record world : Type := World {
  g_most_recent_rgb_meas : option nat;
  g_most_recent_depth_meas : option nat;
  arrivals : nat;            (* number of messages received so far *)
}.

(** The subscriber callbacks [get_RGB_image] and [get_RS_depth_image] /
    [get_pointcloud_msg], on the next message. *)
Definition callback (w : world) (s : sensor) : world :=
  match s with
  | RGB => World (Some (arrivals w)) (g_most_recent_depth_meas w)
             (S (arrivals w))
  | Depth => World (g_most_recent_rgb_meas w) (Some (arrivals w))
               (S (arrivals w))
  end.

(** The messages that arrive during one blocking call ([rospy.sleep] or a
    pivot), in order. *)
Definition deliver (w : world) (batch : list sensor) : world :=
  foldl callback w batch.

(** What the environment will deliver during the blocking calls to come,
    one batch per call.  When it is exhausted no message arrives any
    more. *)
Definition schedule : Type := list (list sensor).

(** The loop [while g_most_recent_rgb_meas is None: sleep].  [None]: the
    loop is still waiting when the schedule ends. *)
Fixpoint wait_rgb (w : world) (sched : schedule)
  : option (nat * world * schedule) :=
  match g_most_recent_rgb_meas w with
  | Some m => Some (m, w, sched)
  | None =>
      match sched with
      | [] => None
      | batch :: sched' => wait_rgb (deliver w batch) sched'
      end
  end.

Definition pop_from_RGB_buffer (w : world) (sched : schedule)
  : option (nat * world * schedule) :=
  '(m, w, sched) ← wait_rgb w sched;
  (* Ensure this same measurement will not be used again. *)
  let w := World None (g_most_recent_depth_meas w) (arrivals w) in
  Some (m, w, sched).

Fixpoint wait_depth (w : world) (sched : schedule)
  : option (nat * world * schedule) :=
  match g_most_recent_depth_meas w with
  | Some m => Some (m, w, sched)
  | None =>
      match sched with
      | [] => None
      | batch :: sched' => wait_depth (deliver w batch) sched'
      end
  end.

Definition pop_from_depth_buffer (w : world) (sched : schedule)
  : option (nat * world * schedule) :=
  (* blank it to None so the measurement has come in after the pivot *)
  let w := World (g_most_recent_rgb_meas w) None (arrivals w) in
  wait_depth w sched.

(** [cmd_discrete_action("turn_right")]: a blocking call. *)
Definition turn_right (w : world) (sched : schedule) : world * schedule :=
  match sched with
  | [] => (w, [])
  | batch :: sched' => (deliver w batch, sched')
  end.

(** One capture of [get_pano_meas]: the RGB view and, when
    [g_use_depth_as_ground_truth], the depth view. *)
Definition capture (g_use_depth_as_ground_truth : bool) (w : world)
    (sched : schedule) : option (nat * option nat * world * schedule) :=
  '(rgb, w, sched) ← pop_from_RGB_buffer w sched;
  if g_use_depth_as_ground_truth then
    '(depth, w, sched) ← pop_from_depth_buffer w sched;
    Some (rgb, Some depth, w, sched)
  else Some (rgb, None, w, sched).

(** Lines 227-249 of [get_pano_meas]: the measurements of the four
    captures (front, right, back, left), RGB and depth. *)
Definition get_pano_meas (g_use_depth_as_ground_truth : bool) (w : world)
    (sched : schedule)
  : option (list nat * list (option nat) * world * schedule) :=
  '(rgb_front, depth_east, w, sched) ←
    capture g_use_depth_as_ground_truth w sched;
  let '(w, sched) := turn_right w sched in
  '(rgb_right, depth_south, w, sched) ←
    capture g_use_depth_as_ground_truth w sched;
  let '(w, sched) := turn_right w sched in
  '(rgb_back, depth_west, w, sched) ←
    capture g_use_depth_as_ground_truth w sched;
  let '(w, sched) := turn_right w sched in
  '(rgb_left, depth_north, w, sched) ←
    capture g_use_depth_as_ground_truth w sched;
  let '(w, sched) := turn_right w sched in
  Some ([rgb_front; rgb_right; rgb_back; rgb_left],
        [depth_east; depth_south; depth_west; depth_north], w, sched).

(** *** [set_global_params] *)

(** The globals [read_params] sets and [set_global_params] reads. *)
Record params : Type := Params {
  g_enable_ml_model : bool;
  g_enable_localization : bool;
  g_use_lidar_as_ground_truth : bool;
  g_fuse_lidar_with_rgb : bool;
  g_use_depth_as_ground_truth : bool;
  g_discrete_assume_yaw_is_known : bool;
  g_manual_goal_cell : option (Z * Z);
}.

(** The fields of [CmnConfig] that [set_global_params] assigns. *)
Record CmnConfig : Type := {
  run_mode : string;
  enable_sim : bool;
  enable_viz : bool;
  enable_ml_model : bool;
  enable_localization : bool;
  use_lidar_as_ground_truth : bool;
  fuse_lidar_with_rgb : bool;
  use_depth_as_ground_truth : bool;
  assume_yaw_is_known : bool;
  manually_set_goal_cell : bool;
  manual_goal_cell : option (Z * Z);
}.

(** [needle in haystack] on strings. *)
Definition py_in (needle haystack : string) : bool :=
  match index 0 needle haystack with
  | Some _ => true
  | None => false
  end.

(** The configuration [set_global_params] hands to
    [CoarseMapNavInterface]; [defaults] is what [CmnConfig()] returns. *)
Definition set_global_params (g : params) (defaults : CmnConfig)
    (run_mode : string) (use_sim use_viz : bool) : CmnConfig :=
  {| run_mode := run_mode;
     enable_sim := use_sim;
     enable_viz := use_viz;
     enable_ml_model := g_enable_ml_model g;
     enable_localization := g_enable_localization g;
     use_lidar_as_ground_truth :=
       g_use_lidar_as_ground_truth g && negb use_sim;
     fuse_lidar_with_rgb :=
       g_fuse_lidar_with_rgb g && negb (g_use_lidar_as_ground_truth g)
       && negb use_sim && g_enable_ml_model g;
     use_depth_as_ground_truth :=
       g_use_depth_as_ground_truth g
       && negb (g_use_lidar_as_ground_truth g) && negb use_sim;
     assume_yaw_is_known :=
       g_discrete_assume_yaw_is_known g && py_in "discrete" run_mode;
     manually_set_goal_cell :=
       match g_manual_goal_cell g with
       | Some _ => true
       | None => manually_set_goal_cell defaults
       end;
     manual_goal_cell :=
       match g_manual_goal_cell g with
       | Some cell => Some cell
       | None => manual_goal_cell defaults
       end |}.

(** The run modes [main] accepts. *)
Definition g_run_modes : list string :=
  ["continuous"; "discrete"; "discrete_random"]%string.

(** *** Notions the statements about the captures use *)

(** Every buffered measurement has arrived: its number is below the count
    of arrivals. *)
Definition stamped (w : world) : Prop :=
  (forall m, g_most_recent_rgb_meas w = Some m -> (m < arrivals w)%nat) /\
  (forall m, g_most_recent_depth_meas w = Some m -> (m < arrivals w)%nat).

(** The buffered RGB measurement, if any, arrived at or after [t]. *)
Definition rgb_since (t : nat) (w : world) : Prop :=
  forall m, g_most_recent_rgb_meas w = Some m -> (t <= m)%nat.
Definition depth_since (t : nat) (w : world) : Prop :=
  forall m, g_most_recent_depth_meas w = Some m -> (t <= m)%nat.

End runner_node.

(** ** [scripts/cmn/cmn_visualizer.py] *)

Module cmn_visualizer.
Local Open Scope Q_scope.





End cmn_visualizer.

(** ** A math library to run the definitions on

    Exact where the examples below evaluate it: [sqrt_floor] on squares of
    rationals, [atan2_axes] on the coordinate axes, the polynomials for
    [sin] and [cos] at 0. *)

Definition sqrt_floor (x : Q) : Q :=
  Z.sqrt (Qnum x * Zpos (Qden x)) # Qden x.

Definition atan2_axes (y x : Q) : Q :=
  if Qeq_bool y 0 then (if Qle_bool 0 x then 0 else pi)
  else if Qeq_bool x 0 then (if Qle_bool 0 y then pi / 2 else - pi / 2)
  else y / x.

Definition sin_poly (a : Q) : Q := a - a ^ 3 / 6.
Definition cos_poly (a : Q) : Q := 1 - a ^ 2 / 2.

Definition example_math : MathLib :=
  {| sqrt_fn := sqrt_floor; atan2 := atan2_axes;
     np_sin := sin_poly; np_cos := cos_poly |}.

(** ** Data for the examples *)

(** A path that crosses the circle of radius 5 around the origin three
    times. *)
Definition zigzag : list PurePursuit.point :=
  [(0, 0); (6, 0); (-6, 0); (-6, 4); (0, 4)]%Q.

(** A 30 x 30 array, all free but for the first ten cells of its first
    row: one tenth of its top left block is occupied. *)
Definition tenth_occupied : grid :=
  (replicate 10 0%Q ++ replicate 20 1%Q) :: replicate 29 (replicate 30 1%Q).

(** An RGB frame arrives, then the capture begins. *)
Definition one_frame_buffered : runner_node.world :=
  runner_node.deliver (runner_node.World None None 0) [runner_node.RGB].

(** A scan of two beams straight ahead, the second beyond the maximum
    range. *)
Definition two_beams : locobot_interface.LaserScan :=
  {| locobot_interface.angle_min := 0;
     locobot_interface.angle_increment := 0;
     locobot_interface.range_min := 0.1;
     locobot_interface.range_max := 5;
     locobot_interface.ranges := [2; 7]%Q |}.

(** * Theorems *)

Section PurePursuitFacts.
Import PurePursuit.
Context `{MathLib}.
Local Open Scope Q_scope.

Lemma pare_loop_found cur path i pre p post :
  drop i path = pre ++ p :: post ->
  Forall (fun q => near cur q = false) pre ->
  near cur p = true ->
  pare_loop cur path (pre ++ p :: post) i = post.
Proof.
  revert i. induction pre as [|q pre IH]; intros i Hdrop Hpre Hp; simpl.
  - rewrite Hp. change (S i) with (1 + i)%nat.
    rewrite Nat.add_comm, <- drop_drop, Hdrop. reflexivity.
  - inversion Hpre as [|? ? Hq Hpre']; subst. rewrite Hq.
    apply IH; [|assumption..].
    change (S i) with (1 + i)%nat.
    rewrite Nat.add_comm, <- drop_drop, Hdrop. reflexivity.
Qed.

Lemma pare_loop_none cur path todo i :
  Forall (fun q => near cur q = false) todo ->
  pare_loop cur path todo i = path.
Proof.
  revert i. induction todo as [|q todo IH]; intros i Hall; simpl; [reflexivity|].
  inversion Hall as [|? ? Hq Hall']; subst. rewrite Hq. apply IH, Hall'.
Qed.

(** The first waypoint near the pose splits the path, unless there is none. *)
Lemma first_near_split cur (path : list point) :
  Forall (fun q => near cur q = false) path \/
  exists pre p post, path = pre ++ p :: post /\
    Forall (fun q => near cur q = false) pre /\ near cur p = true.
Proof.
  induction path as [|q path IH]; [left; constructor|].
  destruct (near cur q) eqn:Hq.
  - right. exists [], q, path. repeat split; [constructor|assumption].
  - destruct IH as [Hall|(pre & p & post & -> & Hpre & Hp)].
    + left. constructor; assumption.
    + right. exists (q :: pre), p, post. repeat split; [constructor|]; assumption.
Qed.

Lemma pare_path_suffix cur path : pare_path cur path `suffix_of` path.
Proof.
  unfold pare_path.
  destruct (first_near_split cur path) as [Hall|(pre & p & post & -> & Hpre & Hp)].
  - rewrite pare_loop_none by assumption. reflexivity.
  - rewrite pare_loop_found by (try assumption; reflexivity).
    exists (pre ++ [p]). rewrite <- app_assoc. reflexivity.
Qed.

Lemma compute_command_path cur t1 t2 st :
  path_meters (compute_command cur t1 t2 st).2 =
  pare_path cur (path_meters st).
Proof.
  unfold compute_command. simpl.
  repeat case_match; simpl; congruence.
Qed.

Lemma compute_commands_suffix calls st :
  path_meters (compute_commands calls st) `suffix_of` path_meters st.
Proof.
  revert st. induction calls as [|[[cur t1] t2] calls IH]; intros st; simpl.
  - reflexivity.
  - etransitivity; [apply IH|].
    rewrite compute_command_path. apply pare_path_suffix.
Qed.


(** C3.  A call to [compute_command] leaves a suffix of the path it found,
    so the path does not get longer: when a waypoint lies strictly within
    0.15 m of the pose, the waypoints up to and including the first such
    one are deleted; otherwise the path is unchanged; and on later calls
    without replanning the path stays a suffix of what this call left. *)
Theorem compute_command_pares_path cur t1 t2 st :
  let before := path_meters st in
  let after := path_meters (compute_command cur t1 t2 st).2 in
  after `suffix_of` before /\
  (length after <= length before)%nat /\
  (forall pre p post,
      before = pre ++ p :: post ->
      Forall (fun q => near cur q = false) pre ->
      near cur p = true ->
      after = post) /\
  (Forall (fun q => near cur q = false) before -> after = before) /\
  (forall calls,
      path_meters (compute_commands calls (compute_command cur t1 t2 st).2)
        `suffix_of` after).
Proof.
  intros before after. subst before after.
  rewrite (compute_command_path cur t1 t2 st).
  split; [apply pare_path_suffix|].
  split; [apply suffix_length, pare_path_suffix|].
  split; [|split].
  - intros pre p post -> Hpre Hp. unfold pare_path.
    apply pare_loop_found; [reflexivity|assumption..].
  - intros Hall. unfold pare_path. apply pare_loop_none, Hall.
  - intros calls. rewrite <- (compute_command_path cur t1 t2 st).
    apply compute_commands_suffix.
Qed.

(** *** The radii of the lookahead search *)


Lemma radius_pos k : 0 < radius k.
Proof.
  induction k as [|k IH]; [reflexivity|].
  change (radius (S k)) with (radius k * 1.25). nra.
Qed.

Lemma radius_past_max k : (11 <= k)%nat -> lookahead_dist_max < radius k.
Proof.
  induction 1 as [|k Hk IH]; [reflexivity|].
  change (radius (S k)) with (radius k * 1.25).
  pose proof (radius_pos k). nra.
Qed.

Lemma lookahead_loop_fuel fuel k cur path pt :
  (fuel + k = lookahead_fuel)%nat ->
  lookahead_loop fuel cur path pt (radius k) <> None.
Proof.
  revert k pt. induction fuel as [|fuel IH]; intros k pt Hk; simpl in Hk.
  - destruct pt; simpl; [discriminate|].
    assert (Hgt : lookahead_dist_max < radius k)
      by (apply radius_past_max; unfold lookahead_fuel in Hk; lia).
    destruct (Qle_bool (radius k) lookahead_dist_max) eqn:Hle; [|discriminate].
    apply Qle_bool_iff in Hle. lra.
  - destruct pt; simpl; [discriminate|].
    destruct (Qle_bool (radius k) lookahead_dist_max); [|discriminate].
    destruct (choose_lookahead_pt cur (radius k) path); [|discriminate].
    apply (IH (S k)). lia.
Qed.

Lemma lookahead_loop_all_fail fuel k cur path :
  (fuel + k = lookahead_fuel)%nat ->
  (forall j, radius j <= lookahead_dist_max ->
             choose_lookahead_pt cur (radius j) path = Ok None) ->
  lookahead_loop fuel cur path None (radius k) = Some (Ok None).
Proof.
  intros Hk Hfail. revert k Hk.
  induction fuel as [|fuel IH]; intros k Hk; simpl in *.
  - assert (Hgt : lookahead_dist_max < radius k)
      by (apply radius_past_max; unfold lookahead_fuel in Hk; lia).
    destruct (Qle_bool (radius k) lookahead_dist_max) eqn:Hle; [|reflexivity].
    apply Qle_bool_iff in Hle. lra.
  - destruct (Qle_bool (radius k) lookahead_dist_max) eqn:Hle; [|reflexivity].
    apply Qle_bool_iff in Hle. rewrite (Hfail k Hle).
    apply (IH (S k)). lia.
Qed.

(** C4, amended.  When the search finds no lookahead point at any of the
    radii 0.2 * 1.25^k that are at most the maximum radius, the lookahead
    point is the first remaining waypoint. *)
Theorem lookahead_fallback_is_first_waypoint cur p0 rest :
  (forall k, radius k <= lookahead_dist_max ->
             choose_lookahead_pt cur (radius k) (p0 :: rest) = Ok None) ->
  lookahead_target cur p0 rest = Ok p0.
Proof.
  intros Hfail. unfold lookahead_target.
  change lookahead_dist_init with (radius 0).
  rewrite (lookahead_loop_all_fail lookahead_fuel 0); [reflexivity|lia|assumption].
Qed.


(** *** Exceptions of the lookahead search *)

Lemma pydiv_raise x y e : pydiv x y = Raise e -> e = ZeroDivisionError.
Proof. unfold pydiv. destruct (Qeq_bool y 0); congruence. Qed.

Lemma segment_candidate_raise cur L p0 p1 e :
  segment_candidate cur L p0 p1 = Raise e -> e = ZeroDivisionError.
Proof.
  unfold segment_candidate.
  destruct (math_sqrt _) as [discr|]; [|discriminate].
  destruct (pydiv (- _ - discr) _) as [q0|] eqn:H0; simpl;
    [|intros [= <-]; eapply pydiv_raise, H0].
  destruct (pydiv (- _ + discr) _) as [q1|] eqn:H1; simpl;
    [|intros [= <-]; eapply pydiv_raise, H1].
  repeat case_match; discriminate.
Qed.

Lemma segment_loop_raise cur L prev todo acc e :
  segment_loop cur L prev todo acc = Raise e -> e = ZeroDivisionError.
Proof.
  revert prev acc. induction todo as [|p todo IH]; intros prev acc; simpl;
    [discriminate|].
  destruct (segment_candidate cur L prev p) as [[pt|]|] eqn:Hc; simpl.
  - apply IH.
  - apply IH.
  - intros [= <-]. eapply segment_candidate_raise, Hc.
Qed.

Lemma choose_lookahead_pt_raise cur L path e :
  choose_lookahead_pt cur L path = Raise e -> e = ZeroDivisionError.
Proof.
  destruct path as [|p0 [|p1 todo]]; simpl; try discriminate.
  apply (segment_loop_raise cur L p0 (p1 :: todo)).
Qed.

Lemma lookahead_loop_raise fuel cur path pt d e :
  lookahead_loop fuel cur path pt d = Some (Raise e) -> e = ZeroDivisionError.
Proof.
  revert pt d. induction fuel as [|fuel IH]; intros pt d; simpl.
  - destruct pt; [discriminate|]. case_match; discriminate.
  - destruct pt; [discriminate|]. case_match; [|discriminate].
    destruct (choose_lookahead_pt cur d path) eqn:Hc.
    + apply IH.
    + intros [= <-]. eapply choose_lookahead_pt_raise, Hc.
Qed.

Lemma lookahead_target_raise cur p0 rest e :
  lookahead_target cur p0 rest = Raise e -> e = ZeroDivisionError.
Proof.
  unfold lookahead_target.
  destruct (lookahead_loop _ _ _ _ _) as [[[pt|]|e']|] eqn:Hl; try discriminate.
  intros [= <-]. eapply lookahead_loop_raise, Hl.
Qed.

(** C1.  What the code does on the first call, where the claim promises
    a proportional-only command: with [last_time] still 0 and a path that
    is not empty after paring, the call raises [ZeroDivisionError] (the
    derivative term divides by [dt = 0]). *)
Theorem compute_command_first_call_raises cur t1 t2 st :
  last_time st == 0 ->
  pare_path cur (path_meters st) <> [] ->
  (compute_command cur t1 t2 st).1 = Raise ZeroDivisionError.
Proof.
  intros Hfirst Hpath. unfold compute_command. simpl.
  destruct (pare_path cur (path_meters st)) as [|p0 rest]; [congruence|].
  destruct (lookahead_target cur p0 rest) as [pt|e] eqn:Ht; simpl.
  - unfold remainder.
    replace (Qeq_bool tau 0) with false by reflexivity.
    rewrite (Qeq_eq_bool _ _ Hfirst). simpl.
    reflexivity.
  - f_equal. eapply lookahead_target_raise, Ht.
Qed.


(** *** Segments *)


Lemma segments_cons2 p q l : segments (p :: q :: l) = (p, q) :: segments (q :: l).
Proof. reflexivity. Qed.

Lemma Qltb_lt x y : Qltb x y = true <-> x < y.
Proof.
  unfold Qltb. rewrite negb_true_iff. split.
  - intros Hf. apply Qnot_le_lt. intros Hle.
    apply Qle_bool_iff in Hle. congruence.
  - intros Hlt. destruct (Qle_bool y x) eqn:Hle; [|reflexivity].
    apply Qle_bool_iff in Hle. lra.
Qed.

Lemma segment_candidate_no_root cur L p0 p1 :
  discriminant cur L p0 p1 < 0 -> segment_candidate cur L p0 p1 = Ok None.
Proof.
  intros Hneg. unfold segment_candidate, math_sqrt.
  apply Qltb_lt in Hneg. unfold discriminant, quad_a, quad_b, quad_c in Hneg.
  simpl in *. rewrite Hneg. reflexivity.
Qed.

Lemma segment_candidate_roots cur L p0 p1 discr q0 q1 :
  math_sqrt (discriminant cur L p0 p1) = Ok discr ->
  pydiv (- quad_b cur p0 p1 - discr) (2 * quad_a p0 p1) = Ok q0 ->
  pydiv (- quad_b cur p0 p1 + discr) (2 * quad_a p0 p1) = Ok q1 ->
  segment_candidate cur L p0 p1 =
    Ok (if valid q0 then Some (along p0 p1 q0)
        else if valid q1 then Some (along p0 p1 q1) else None).
Proof.
  intros Hs H0 H1. unfold segment_candidate.
  unfold discriminant, quad_a, quad_b, quad_c in *. simpl in *.
  rewrite Hs. simpl. rewrite H0. simpl. rewrite H1. simpl.
  unfold along. repeat case_match; reflexivity.
Qed.

Lemma Qsquare_nonneg (z : Q) : 0 <= z ^ 2.
Proof. nra. Qed.


Lemma quad_a_nonneg p0 p1 : 0 <= quad_a p0 p1.
Proof.
  unfold quad_a.
  pose proof (Qsquare_nonneg (p1.1 - p0.1)).
  pose proof (Qsquare_nonneg (p1.2 - p0.2)). lra.
Qed.

Lemma roots_ordered (b a discr q0 q1 : Q) :
  0 <= a -> 0 <= discr ->
  pydiv (- b - discr) (2 * a) = Ok q0 ->
  pydiv (- b + discr) (2 * a) = Ok q1 ->
  q0 <= q1.
Proof.
  intros Ha Hd. unfold pydiv.
  destruct (Qeq_bool (2 * a) 0) eqn:Hz; [discriminate|].
  intros [= <-] [= <-]. apply Qeq_bool_neq in Hz.
  unfold Qdiv. apply Qmult_le_compat_r; [lra|].
  apply Qinv_le_0_compat. lra.
Qed.

Lemma math_sqrt_nonneg x y :
  (forall z, 0 <= z -> 0 <= sqrt_fn z) -> math_sqrt x = Ok y -> 0 <= y.
Proof.
  intros Hsqrt. unfold math_sqrt.
  destruct (Qltb x 0) eqn:Hlt; [discriminate|]. intros [= <-].
  apply Hsqrt. destruct (Qlt_le_dec x 0) as [Hx|Hx]; [|exact Hx].
  apply Qltb_lt in Hx. congruence.
Qed.

Lemma segment_loop_no_candidates cur L prev todo acc :
  Forall (fun s => candidate_of cur L s = Ok None) (segments (prev :: todo)) ->
  segment_loop cur L prev todo acc = Ok acc.
Proof.
  revert prev. induction todo as [|p todo IH]; intros prev Hall; [reflexivity|].
  rewrite segments_cons2 in Hall. inversion Hall as [|? ? Hc Hall']; subst.
  unfold candidate_of in Hc. simpl in *. rewrite Hc. simpl. apply IH, Hall'.
Qed.

Lemma segment_loop_last_candidate cur L prev pre p q post acc pt :
  Forall (fun s => is_ok (candidate_of cur L s) = true)
    (segments (prev :: pre ++ [p])) ->
  segment_candidate cur L p q = Ok (Some pt) ->
  Forall (fun s => candidate_of cur L s = Ok None) (segments (q :: post)) ->
  segment_loop cur L prev (pre ++ p :: q :: post) acc = Ok (Some pt).
Proof.
  intros Hpre Hc Hpost. revert prev acc Hpre.
  induction pre as [|x pre IH]; intros prev acc Hpre.
  - simpl in Hpre. inversion Hpre as [|? ? Hok _]; subst.
    unfold candidate_of in Hok. simpl in *.
    destruct (segment_candidate cur L prev p) as [[pt'|]|]; try discriminate;
      simpl; rewrite Hc; simpl; apply segment_loop_no_candidates, Hpost.
  - change (prev :: (x :: pre) ++ [p]) with (prev :: x :: (pre ++ [p])) in Hpre.
    rewrite segments_cons2 in Hpre. inversion Hpre as [|? ? Hok Hpre']; subst.
    unfold candidate_of in Hok. simpl in *.
    destruct (segment_candidate cur L prev x) as [[pt'|]|]; try discriminate;
      simpl; apply IH, Hpre'.
Qed.

(** C5.  At a fixed radius: a segment with a negative discriminant gives
    no candidate; when both roots are in [0, 1] the candidate is the point
    at the lower root; the point returned is the candidate of the last
    segment that has one, given that no earlier segment raised; and it is
    [None] when no segment has one. *)
Theorem choose_lookahead_pt_last_valid_segment :
  (forall z, 0 <= z -> 0 <= sqrt_fn z) ->
  (forall cur L p0 p1,
      discriminant cur L p0 p1 < 0 ->
      segment_candidate cur L p0 p1 = Ok None) /\
  (forall cur L p0 p1 discr q0 q1,
      math_sqrt (discriminant cur L p0 p1) = Ok discr ->
      pydiv (- quad_b cur p0 p1 - discr) (2 * quad_a p0 p1) = Ok q0 ->
      pydiv (- quad_b cur p0 p1 + discr) (2 * quad_a p0 p1) = Ok q1 ->
      valid q0 = true -> valid q1 = true ->
      q0 <= q1 /\
      segment_candidate cur L p0 p1 = Ok (Some (along p0 p1 q0))) /\
  (forall cur L pre p q post pt,
      Forall (fun s => is_ok (candidate_of cur L s) = true)
        (segments (pre ++ [p])) ->
      segment_candidate cur L p q = Ok (Some pt) ->
      Forall (fun s => candidate_of cur L s = Ok None) (segments (q :: post)) ->
      choose_lookahead_pt cur L (pre ++ p :: q :: post) = Ok (Some pt)) /\
  (forall cur L p0 p1 rest,
      Forall (fun s => candidate_of cur L s = Ok None)
        (segments (p0 :: p1 :: rest)) ->
      choose_lookahead_pt cur L (p0 :: p1 :: rest) = Ok None).
Proof.
  intros Hsqrt. split; [|split; [|split]].
  - apply segment_candidate_no_root.
  - intros cur L p0 p1 discr q0 q1 Hs H0 H1 Hv0 Hv1. split.
    + eapply roots_ordered; [apply quad_a_nonneg| |exact H0|exact H1].
      eapply math_sqrt_nonneg; eassumption.
    + rewrite (segment_candidate_roots _ _ _ _ _ _ _ Hs H0 H1), Hv0.
      reflexivity.
  - intros cur L pre p q post pt Hpre Hc Hpost.
    destruct pre as [|x pre]; simpl.
    + rewrite Hc. simpl. apply segment_loop_no_candidates, Hpost.
    + destruct (pre ++ p :: q :: post) eqn:Hl;
        [destruct pre; discriminate|]. rewrite <- Hl.
      apply segment_loop_last_candidate; assumption.
  - intros cur L p0 p1 rest Hall.
    apply (segment_loop_no_candidates cur L p0 (p1 :: rest)), Hall.
Qed.




End PurePursuitFacts.

Section PurePursuitExamples.
Import PurePursuit.
Local Open Scope Q_scope.

Lemma sqrt_floor_nonneg z : 0 <= z -> 0 <= sqrt_floor z.
Proof.
  intros _. unfold sqrt_floor, Qle. simpl.
  pose proof (Z.sqrt_nonneg (Qnum z * Z.pos (Qden z))). lia.
Qed.

(** A fresh controller, one waypoint one meter ahead of the vehicle. *)
Lemma compute_command_first_call_raises_witness :
  (@compute_command example_math (Pose 0 0 0) 100 100 (initial [(1, 0)])).1
  = Raise ZeroDivisionError.
Proof.
  apply compute_command_first_call_raises;
    [vm_compute; reflexivity | vm_compute; discriminate].
Defined.

(** The path from (10, 0) to (3, 0) lies outside every search circle
    around the origin. *)
Lemma far_path_all_radii_fail k :
  radius k <= lookahead_dist_max ->
  @choose_lookahead_pt example_math (Pose 0 0 0) (radius k)
    [(10, 0); (3, 0)] = Ok None.
Proof.
  intros Hle. destruct (le_lt_dec 11 k) as [Hk|Hk].
  - pose proof (radius_past_max k Hk). lra.
  - do 11 (destruct k as [|k]; [vm_compute; reflexivity|]). lia.
Qed.

Lemma lookahead_fallback_is_first_waypoint_witness :
  @lookahead_target example_math (Pose 0 0 0) (10, 0) [(3, 0)] = Ok (10, 0).
Proof.
  apply lookahead_fallback_is_first_waypoint. exact far_path_all_radii_fail.
Defined.


Lemma lookahead_fallback_not_nearest :
  ~ (forall (M : MathLib) cur p0 rest,
        (forall k, radius k <= lookahead_dist_max ->
                   choose_lookahead_pt cur (radius k) (p0 :: rest) = Ok None) ->
        exists pt, lookahead_target cur p0 rest = Ok pt /\
                   nearest cur (p0 :: rest) pt).
Proof.
  intros Hclaim.
  destruct (Hclaim example_math (Pose 0 0 0) (10, 0) [(3, 0)]
              far_path_all_radii_fail) as (pt & Hpt & _ & Hmin).
  vm_compute in Hpt. injection Hpt as <-.
  specialize (Hmin (3, 0)).
  assert (Hin : ((3, 0) : point) ∈ [((10, 0) : point); (3, 0)])
    by (apply elem_of_cons; right; apply elem_of_cons; left; reflexivity).
  apply Hmin in Hin. vm_compute in Hin. apply Hin. reflexivity.
Qed.


Lemma choose_lookahead_pt_last_valid_segment_witness :
  @segment_candidate example_math (Pose 0 0 0) 5 (-6, 0) (-6, 4) = Ok None /\
  (exists q0 q1,
      q0 <= q1 /\
      @segment_candidate example_math (Pose 0 0 0) 5 (6, 0) (-6, 0)
      = Ok (Some (along (6, 0) (-6, 0) q0))) /\
  @choose_lookahead_pt example_math (Pose 0 0 0) 5 zigzag
  = Ok (Some (-216 # 72, 288 # 72)) /\
  @choose_lookahead_pt example_math (Pose 0 0 0) 5 [(-6, 0); (-6, 4); (-6, 8)]
  = Ok None.
Proof.
  destruct (@choose_lookahead_pt_last_valid_segment example_math
              sqrt_floor_nonneg) as (Hnone & Hlow & Hlast & Hall).
  split; [|split; [|split]].
  - apply Hnone. vm_compute. reflexivity.
  - eexists _, _.
    eapply (Hlow (Pose 0 0 0) 5 (6, 0) (-6, 0) 120);
      vm_compute; reflexivity.
  - apply (Hlast (Pose 0 0 0) 5 [(0, 0); (6, 0); (-6, 0)] (-6, 4) (0, 4) []).
    + repeat constructor.
    + vm_compute. reflexivity.
    + constructor.
  - apply Hall. repeat constructor.
Defined.

End PurePursuitExamples.

Section MotionPlanningFacts.
Import PurePursuit motion_planning_node.
Local Open Scope Q_scope.

Lemma Qltb_ge x y : Qltb x y = false <-> y <= x.
Proof.
  unfold Qltb. rewrite negb_false_iff. apply Qle_bool_iff.
Qed.



Lemma clamp_inside value lo hi :
  lo <= value -> value <= hi -> clamp value lo hi = value.
Proof.
  intros Hlo Hhi. unfold clamp.
  apply Qltb_ge in Hlo, Hhi. rewrite Hlo, Hhi. reflexivity.
Qed.

Lemma clamp_range value lo hi :
  lo <= hi -> lo <= clamp value lo hi /\ clamp value lo hi <= hi.
Proof.
  intros Hle. unfold clamp.
  destruct (Qltb value lo) eqn:H1; [lra|].
  destruct (Qltb hi value) eqn:H2; [lra|].
  apply Qltb_ge in H1, H2. lra.
Qed.

Lemma clamp_idempotent value lo hi :
  lo <= hi -> clamp (clamp value lo hi) lo hi = clamp value lo hi.
Proof.
  intros Hle. destruct (clamp_range value lo hi Hle).
  apply clamp_inside; assumption.
Qed.

Lemma clamp_unchanged_iff value lo hi :
  lo <= hi -> (clamp value lo hi == value <-> lo <= value /\ value <= hi).
Proof.
  intros Hle. split.
  - intros Heq. destruct (clamp_range value lo hi Hle). lra.
  - intros [Hlo Hhi]. rewrite clamp_inside by assumption. reflexivity.
Qed.

Lemma Qeq_bool_false_iff x y : Qeq_bool x y = false <-> ~ x == y.
Proof.
  split; [apply Qeq_bool_neq|].
  intros Hne. destruct (Qeq_bool x y) eqn:He; [|reflexivity].
  apply Qeq_bool_eq in He. contradiction.
Qed.



End MotionPlanningFacts.

(** ** Arrays *)
Section ArrayFacts.
Local Open Scope Q_scope.

Lemma np_ones_shape rows cols : has_shape rows cols (np_ones rows cols).
Proof.
  unfold has_shape, np_ones. split; [apply length_replicate|].
  apply Forall_replicate, length_replicate.
Qed.

Lemma np_ones_cell rows cols r c :
  (r < rows)%nat -> (c < cols)%nat -> cell (np_ones rows cols) r c = Some 1.
Proof.
  intros Hr Hc. unfold cell, np_ones.
  rewrite lookup_replicate_2 by assumption. simpl.
  apply lookup_replicate_2, Hc.
Qed.
End ArrayFacts.

Section LidarFacts.
Import locobot_interface.
Local Open Scope Q_scope.
Context `{MathLib}.
Variable bresenham : Z -> Z -> Z -> Z -> list (Z * Z).
Variable n : nat.
Variable res : Q.

Abbreviation in_bounds := (in_bounds n).
Abbreviation set_cell := (set_cell).
Abbreviation mark_ray := (mark_ray n).
Abbreviation clip := (clip n).

Lemma in_bounds_nat rc :
  in_bounds rc = true ->
  (Z.to_nat rc.1 < n)%nat /\ (Z.to_nat rc.2 < n)%nat /\
  rc = (Z.of_nat (Z.to_nat rc.1), Z.of_nat (Z.to_nat rc.2)).
Proof.
  unfold locobot_interface.in_bounds, shape0, shape1. destruct rc as [r c]. simpl.
  rewrite !andb_true_iff. intros [[[Hr0 Hc0] Hr] Hc].
  apply Z.leb_le in Hr0, Hc0. apply Z.ltb_lt in Hr, Hc.
  rewrite !Z2Nat.id by assumption. repeat split; lia.
Qed.

Lemma set_cell_shape a rc v : has_shape n n a -> has_shape n n (set_cell a rc v).
Proof.
  unfold has_shape, locobot_interface.set_cell. intros [Hlen Hrows]. split.
  - rewrite length_alter. exact Hlen.
  - apply Forall_alter; [exact Hrows|].
    intros row _ Hrow. rewrite length_insert. exact Hrow.
Qed.

Lemma set_cell_lookup a rc v r c :
  has_shape n n a -> in_bounds rc = true ->
  cell (set_cell a rc v) r c =
  if decide (rc = (Z.of_nat r, Z.of_nat c)) then Some v else cell a r c.
Proof.
  intros [Hlen Hrows] Hin.
  destruct (in_bounds_nat rc Hin) as (Hr & Hc & Hrc).
  destruct rc as [zr zc]. simpl in *. injection Hrc as Hzr Hzc.
  unfold cell, locobot_interface.set_cell. simpl.
  destruct (decide (Z.to_nat zr = r)) as [<-|Hne].
  - rewrite list_lookup_alter_eq.
    destruct (a !! Z.to_nat zr) as [row|] eqn:Hrow; simpl.
    + assert (Hl : length row = n).
      { eapply Forall_lookup_1 in Hrows; [exact Hrows|exact Hrow]. }
      destruct (decide (Z.to_nat zc = c)) as [<-|Hne].
      * rewrite list_lookup_insert_eq by lia.
        rewrite decide_True by congruence. reflexivity.
      * rewrite list_lookup_insert_ne by assumption.
        rewrite decide_False; [reflexivity|].
        intros [= _ ->]. rewrite Nat2Z.id in Hne. congruence.
    + apply lookup_ge_None in Hrow. lia.
  - rewrite list_lookup_alter_ne by assumption.
    rewrite decide_False; [reflexivity|].
    intros [= -> _]. rewrite Nat2Z.id in Hne. congruence.
Qed.

Lemma mark_ray_shape a cells : has_shape n n a -> has_shape n n (mark_ray a cells).
Proof.
  revert a. induction cells as [|rc cells IH]; intros a Ha; cbn [locobot_interface.mark_ray locobot_interface.clip]; [exact Ha|].
  destruct (in_bounds rc); [|exact Ha]. apply IH, set_cell_shape, Ha.
Qed.

Lemma mark_ray_lookup a cells r c :
  has_shape n n a ->
  cell (mark_ray a cells) r c =
  if decide ((Z.of_nat r, Z.of_nat c) ∈ clip cells) then Some 0
  else cell a r c.
Proof.
  revert a. induction cells as [|rc cells IH]; intros a Ha;
    cbn [locobot_interface.mark_ray locobot_interface.clip].
  - rewrite decide_False; [reflexivity|]. apply not_elem_of_nil.
  - destruct (in_bounds rc) eqn:Hin.
    + rewrite IH by (apply set_cell_shape, Ha).
      rewrite set_cell_lookup by assumption.
      destruct (decide ((Z.of_nat r, Z.of_nat c) ∈ clip cells)) as [Hc|Hc],
        (decide (rc = (Z.of_nat r, Z.of_nat c))) as [He|He],
        (decide ((Z.of_nat r, Z.of_nat c) ∈ rc :: clip cells)) as [Hd|Hd];
        try reflexivity; exfalso.
      * apply Hd. right. exact Hc.
      * apply Hd. right. exact Hc.
      * apply Hd. rewrite He. left.
      * apply elem_of_cons in Hd as [Hd|Hd]; [congruence|contradiction].
    + rewrite decide_False; [reflexivity|]. apply not_elem_of_nil.
Qed.

Lemma clip_in_bounds cells rc : rc ∈ clip cells -> in_bounds rc = true.
Proof.
  induction cells as [|x cells IH]; simpl; [intros []%not_elem_of_nil|].
  destruct (in_bounds x) eqn:Hx; [|intros []%not_elem_of_nil].
  intros [->|Hin]%elem_of_cons; [exact Hx|apply IH, Hin].
Qed.

Lemma clip_prefix cells : clip cells `prefix_of` cells.
Proof.
  induction cells as [|x cells IH]; simpl; [reflexivity|].
  destruct (in_bounds x); [apply prefix_cons, IH|apply prefix_nil].
Qed.



Lemma valid_range_iff msg range_i :
  valid_range msg range_i = true <->
  range_min msg <= range_i <= range_max msg.
Proof.
  unfold valid_range. rewrite negb_true_iff, orb_false_iff, !Qltb_ge.
  tauto.
Qed.

Lemma pydiv_ok x y : ~ y == 0 -> pydiv x y = Ok (x / y).
Proof.
  intros Hy. unfold pydiv.
  apply Qeq_bool_false_iff in Hy. rewrite Hy. reflexivity.
Qed.

Lemma beam_ends_ok msg mrp i range_i :
  ~ res == 0 ->
  exists hit far, beam_ends n res msg mrp i range_i = Ok (hit, far).
Proof.
  intros Hres. unfold beam_ends. rewrite pydiv_ok by assumption.
  simpl. eauto.
Qed.

Lemma hit_by_nil msg mrp i rc : ~ hit_by bresenham n res msg mrp i [] rc.
Proof. intros (j & x & Hj & _). rewrite lookup_nil in Hj. discriminate. Qed.

Lemma hit_by_cons msg mrp i x todo rc :
  hit_by bresenham n res msg mrp i (x :: todo) rc <->
  (range_min msg <= x <= range_max msg /\
   rc ∈ traced bresenham n res msg mrp i x) \/
  hit_by bresenham n res msg mrp (S i) todo rc.
Proof.
  unfold hit_by. split.
  - intros (j & y & Hj & Hv & Hin). destruct j as [|j]; simpl in Hj.
    + injection Hj as <-. left. rewrite Nat.add_0_r in Hin. tauto.
    + right. exists j, y. rewrite Nat.add_succ_r in Hin. tauto.
  - intros [[Hv Hin]|(j & y & Hj & Hv & Hin)].
    + exists 0%nat, x. rewrite Nat.add_0_r. tauto.
    + exists (S j), y. rewrite Nat.add_succ_r. tauto.
Qed.

Lemma beam_loop_cells msg mrp :
  ~ res == 0 ->
  forall todo i a,
    has_shape n n a ->
    exists a',
      beam_loop bresenham n res msg mrp i todo a = Ok a' /\
      has_shape n n a' /\
      forall r c,
        (hit_by bresenham n res msg mrp i todo (Z.of_nat r, Z.of_nat c) /\
         cell a' r c = Some 0) \/
        (~ hit_by bresenham n res msg mrp i todo (Z.of_nat r, Z.of_nat c) /\
         cell a' r c = cell a r c).
Proof.
  intros Hres. induction todo as [|x todo IH]; intros i a Ha.
  - exists a. split; [reflexivity|]. split; [exact Ha|].
    intros r c. right. split; [apply hit_by_nil|reflexivity].
  - cbn [beam_loop].
    destruct (valid_range msg x) eqn:Hv.
    + destruct (beam_ends_ok msg mrp i x Hres) as ([rh ch] & [rm cm] & He).
      rewrite He. cbn [mbind result_bind].
      set (a1 := mark_ray a (bresenham rh ch rm cm)).
      destruct (IH (S i) a1) as (a' & Hloop & Hshape & Hcells);
        [apply mark_ray_shape, Ha|].
      exists a'. split; [exact Hloop|]. split; [exact Hshape|].
      intros r c. rewrite hit_by_cons.
      assert (Htr : traced bresenham n res msg mrp i x
                    = clip (bresenham rh ch rm cm))
        by (unfold traced; rewrite He; reflexivity).
      apply valid_range_iff in Hv.
      destruct (Hcells r c) as [[Hhit Hc]|[Hmiss Hc]]; [left; tauto|].
      subst a1. rewrite mark_ray_lookup in Hc by exact Ha.
      destruct (decide (_ ∈ clip (bresenham rh ch rm cm))) as [Hin|Hout].
      * left. split; [|exact Hc]. left. rewrite Htr. tauto.
      * right. split; [|exact Hc]. rewrite Htr. tauto.
    + destruct (IH (S i) a Ha) as (a' & Hloop & Hshape & Hcells).
      exists a'. split; [exact Hloop|]. split; [exact Hshape|].
      intros r c. rewrite hit_by_cons.
      assert (Hnv : ~ (range_min msg <= x <= range_max msg)).
      { rewrite <- valid_range_iff. congruence. }
      destruct (Hcells r c) as [[Hhit Hc]|[Hmiss Hc]]; [left|right]; tauto.
Qed.

Lemma get_lidar_cells msg :
  ~ res == 0 ->
  exists local_occ_meas,
    get_lidar bresenham n res msg
    = Ok (local_occ_meas, detects_wall n local_occ_meas) /\
    has_shape n n local_occ_meas /\
    forall r c,
      (r < n)%nat -> (c < n)%nat ->
      (cell local_occ_meas r c = Some 0 <->
       hit_by bresenham n res msg (range_max msg / res) 0 (ranges msg)
         (Z.of_nat r, Z.of_nat c)) /\
      (cell local_occ_meas r c = Some 1 <->
       ~ hit_by bresenham n res msg (range_max msg / res) 0 (ranges msg)
           (Z.of_nat r, Z.of_nat c)).
Proof.
  intros Hres. unfold get_lidar. rewrite pydiv_ok by assumption.
  cbn [mbind result_bind].
  destruct (beam_loop_cells msg (range_max msg / res) Hres (ranges msg) 0%nat
              (np_ones n n) (np_ones_shape n n))
    as (a & Hloop & Hshape & Hcells).
  exists a. rewrite Hloop. split; [reflexivity|]. split; [exact Hshape|].
  intros r c Hr Hc.
  destruct (Hcells r c) as [[Hhit Hcell]|[Hmiss Hcell]].
  - rewrite Hcell. split; [tauto|]. split; [discriminate|contradiction].
  - rewrite Hcell, np_ones_cell by assumption.
    split; [|tauto]. split; [discriminate|contradiction].
Qed.


End LidarFacts.

Section MeanFacts.
Local Open Scope Q_scope.

Lemma Qsum_const (l : list Q) v :
  Forall (fun x => x == v) l ->
  Qsum l == inject_Z (Z.of_nat (length l)) * v.
Proof.
  induction 1 as [|x l Hx _ IH].
  - simpl. ring.
  - cbn [Qsum foldr length]. fold (Qsum l). rewrite IH, Hx.
    rewrite Nat2Z.inj_succ, <- Z.add_1_r, inject_Z_plus. ring.
Qed.

Lemma np_mean_nan (a : grid) : np_mean a = None <-> concat a = [].
Proof. unfold np_mean. destruct (concat a); split; congruence. Qed.

Lemma np_mean_const (a : grid) v :
  Forall (Forall (fun x => x == v)) a -> concat a <> [] ->
  exists m, np_mean a = Some m /\ m == v.
Proof.
  intros Hall Hne. unfold np_mean.
  assert (Hc : Forall (fun x => x == v) (concat a)) by (apply Forall_concat, Hall).
  destruct (concat a) as [|x xs] eqn:Hxs; [congruence|].
  eexists. split; [reflexivity|].
  rewrite (Qsum_const _ v Hc).
  assert (Hlen : ~ inject_Z (Z.of_nat (length (x :: xs))) == 0).
  { intros Heq. unfold Qeq in Heq. cbn [Qnum Qden inject_Z length] in Heq. lia. }
  field. exact Hlen.
Qed.


End MeanFacts.

Section WallFlagFacts.
Import locobot_interface.
Local Open Scope Q_scope.
Context `{MathLib}.
Variable bresenham : Z -> Z -> Z -> Z -> list (Z * Z).
Variable n : nat.
Variable res : Q.

Lemma detects_wall_iff (a : grid) :
  detects_wall n a = true <->
  exists m, np_mean (front_cell_block n a) = Some m /\ m <= 0.75.
Proof.
  unfold detects_wall. destruct (np_mean _) as [m|].
  - rewrite Qle_bool_iff. split; [eauto|]. intros (m' & [= <-] & Hm). exact Hm.
  - split; [discriminate|]. intros (m' & Hm & _). discriminate.
Qed.




End WallFlagFacts.

Section SliceFacts.
Local Open Scope Q_scope.

Lemma py_slice_lookup {A} (s : slice) (l : list A) i :
  py_slice s l !! i =
  if in_slice s (start s + i) then l !! (start s + i)%nat else None.
Proof.
  unfold py_slice, in_slice.
  replace (start s <=? start s + i)%nat with true
    by (symmetry; apply Nat.leb_le; lia).
  cbn [andb]. destruct (stop s) as [e|].
  - rewrite lookup_take, lookup_drop.
    destruct (decide (i < e - start s)%nat) as [Hlt|Hge].
    + replace (start s + i <? e)%nat with true
        by (symmetry; apply Nat.ltb_lt; lia). reflexivity.
    + replace (start s + i <? e)%nat with false
        by (symmetry; apply Nat.ltb_ge; lia). reflexivity.
  - apply lookup_drop.
Qed.

Lemma assign_row_lookup rs cs v (a : grid) k :
  assign rs cs v a !! k =
  (fun row => if in_slice rs k
              then imap (fun j x => if in_slice cs j then v else x) row
              else row) <$> a !! k.
Proof. unfold assign. apply list_lookup_imap. Qed.

Lemma assign_cell rs cs v (a : grid) r c :
  cell (assign rs cs v a) r c =
  (fun x => if in_slice rs r && in_slice cs c then v else x) <$> cell a r c.
Proof.
  unfold cell. rewrite assign_row_lookup.
  destruct (a !! r) as [row|]; [|reflexivity]. simpl.
  destruct (in_slice rs r); [|destruct (row !! c); reflexivity].
  rewrite list_lookup_imap. reflexivity.
Qed.

Lemma assign_length rs cs v (a : grid) : length (assign rs cs v a) = length a.
Proof. unfold assign. apply length_imap. Qed.


Lemma block_assign_apart rs cs rs' cs' v (a : grid) :
  apart rs cs rs' cs' ->
  block rs cs (assign rs' cs' v a) = block rs cs a.
Proof.
  intros Hapart. unfold block. apply list_eq. intros i.
  rewrite !list_lookup_fmap, !py_slice_lookup.
  destruct (in_slice rs (start rs + i)) eqn:Hrow; [|reflexivity].
  rewrite assign_row_lookup.
  destruct (a !! (start rs + i)%nat) as [row|]; [|reflexivity].
  simpl. f_equal.
  destruct (in_slice rs' (start rs + i)) eqn:Hrow'; [|reflexivity].
  destruct Hapart as [Hrows|Hcols];
    [rewrite (Hrows _ Hrow) in Hrow'; discriminate|].
  apply list_eq. intros j. rewrite !py_slice_lookup.
  destruct (in_slice cs (start cs + j)) eqn:Hcol; [|reflexivity].
  rewrite list_lookup_imap, (Hcols _ Hcol).
  destruct (row !! (start cs + j)%nat); reflexivity.
Qed.
End SliceFacts.

Section CornerFacts.
Import runner_node.
Local Open Scope Q_scope.



Lemma repair_block_eq rs cs a :
  repair_block rs cs a = if crowdedb rs cs a then assign rs cs 0 a else a.
Proof.
  unfold repair_block, crowdedb. destruct (np_mean _); reflexivity.
Qed.

Lemma repair_block_cell rs cs a r c :
  cell (repair_block rs cs a) r c =
  (fun x => if crowdedb rs cs a && (in_slice rs r && in_slice cs c)
            then 0 else x) <$> cell a r c.
Proof.
  rewrite repair_block_eq. destruct (crowdedb rs cs a).
  - apply assign_cell.
  - simpl. destruct (cell a r c); reflexivity.
Qed.

Lemma repair_block_apart rs cs rs' cs' a :
  apart rs cs rs' cs' ->
  crowdedb rs cs (repair_block rs' cs' a) = crowdedb rs cs a.
Proof.
  intros Hapart. rewrite repair_block_eq. destruct (crowdedb rs' cs' a);
    [|reflexivity].
  unfold crowdedb. rewrite block_assign_apart by assumption. reflexivity.
Qed.

Lemma upto_from_apart a b i :
  (a <= b)%nat -> in_slice (upto a) i = true -> in_slice (from b) i = false.
Proof.
  unfold in_slice, upto, from. simpl. intros Hab Hi.
  apply Nat.ltb_lt in Hi. rewrite andb_true_r. apply Nat.leb_gt. lia.
Qed.

Lemma from_upto_apart a b i :
  (a <= b)%nat -> in_slice (from b) i = true -> in_slice (upto a) i = false.
Proof.
  unfold in_slice, upto, from. simpl. intros Hab Hi.
  rewrite andb_true_r in Hi. apply Nat.leb_le in Hi. apply Nat.ltb_ge. lia.
Qed.

Lemma thirds_le rows : (rows / 3 <= 2 * rows / 3)%nat.
Proof. apply Nat.Div0.div_le_mono. lia. Qed.

(** What [corner_repair] does to one cell. *)
Lemma corner_repair_cell a r c :
  cell (corner_repair a) r c =
  (fun x =>
     if existsb (fun '(rs, cs) =>
                   crowdedb rs cs a && (in_slice rs r && in_slice cs c))
          (corners (length a))
     then 0 else x) <$> cell a r c.
Proof.
  pose proof (thirds_le (length a)) as Hle.
  unfold corner_repair, corners.
  change ((3 - 1) * length a / 3)%nat with (2 * length a / 3)%nat.
  set (one_third := (length a / 3)%nat) in *.
  set (two_thirds := (2 * length a / 3)%nat) in *.
  cbv zeta.
  rewrite !repair_block_cell.
  rewrite !repair_block_apart
    by (first [ left; intros i; apply upto_from_apart; exact Hle
              | left; intros i; apply from_upto_apart; exact Hle
              | right; intros i; apply upto_from_apart; exact Hle
              | right; intros i; apply from_upto_apart; exact Hle ]).
  destruct (cell a r c) as [x|]; [|reflexivity].
  cbn [fmap option_fmap option_map existsb].
  f_equal.
  repeat (match goal with
          | |- context [crowdedb ?rs ?cs a && ?b] =>
              destruct (crowdedb rs cs a && b); cbn [orb]
          end); reflexivity.
Qed.
End CornerFacts.

Section CornerTheorem.
Import runner_node.
Local Open Scope Q_scope.






End CornerTheorem.

Section BufferFacts.
Import runner_node.


Lemma callback_facts w s t :
  stamped w -> t <= arrivals w ->
  stamped (callback w s) /\ arrivals w < arrivals (callback w s) /\
  (rgb_since t w -> rgb_since t (callback w s)) /\
  (depth_since t w -> depth_since t (callback w s)).
Proof.
  intros [Hr Hd] Ht. unfold stamped, rgb_since, depth_since.
  destruct s; simpl; repeat split; try lia; intros;
    simplify_eq; try lia; eauto using Nat.lt_lt_succ_r.
Qed.

Lemma deliver_facts batch w t :
  stamped w -> t <= arrivals w ->
  stamped (deliver w batch) /\ arrivals w <= arrivals (deliver w batch) /\
  (rgb_since t w -> rgb_since t (deliver w batch)) /\
  (depth_since t w -> depth_since t (deliver w batch)).
Proof.
  revert w. induction batch as [|s batch IH]; intros w Hw Ht; simpl.
  - repeat split; [apply Hw..|lia|tauto|tauto].
  - destruct (callback_facts w s t Hw Ht) as (Hw1 & Hlt & Hr1 & Hd1).
    destruct (IH (callback w s) Hw1) as (Hw2 & Hle & Hr2 & Hd2); [lia|].
    fold (deliver (callback w s) batch) in *.
    repeat split; [apply Hw2..|lia|tauto|tauto].
Qed.

Lemma wait_rgb_facts sched w t m w' sched' :
  stamped w -> t <= arrivals w -> rgb_since t w ->
  wait_rgb w sched = Some (m, w', sched') ->
  stamped w' /\ arrivals w <= arrivals w' /\
  g_most_recent_rgb_meas w' = Some m /\ t <= m /\
  (forall u, depth_since u w -> u <= arrivals w -> depth_since u w') /\
  (g_most_recent_rgb_meas w = Some m \/
   g_most_recent_rgb_meas w = None /\ arrivals w <= m).
Proof.
  revert w t. induction sched as [|batch sched IH]; intros w t Hw Ht Hsince;
    simpl; destruct (g_most_recent_rgb_meas w) as [m0|] eqn:Hbuf;
    try discriminate.
  - intros [= <- <- <-]. repeat split; try apply Hw; eauto.
  - intros [= <- <- <-]. repeat split; try apply Hw; eauto.
  - intros Hwait.
    destruct (deliver_facts batch w (arrivals w) Hw (le_n _))
      as (Hw1 & Hle & Hr1 & _).
    assert (Hfresh : rgb_since (arrivals w) (deliver w batch)).
    { apply Hr1. intros m1 Hm1. congruence. }
    destruct (IH (deliver w batch) (arrivals w) Hw1 Hle Hfresh Hwait)
      as (Hw' & Hle' & Hbuf' & Hm & Hdep & _).
    repeat split; try apply Hw'; try lia; eauto.
    intros u Hu Hule. apply Hdep; [|lia].
    apply (deliver_facts batch w u Hw Hule), Hu.
Qed.

Lemma wait_depth_facts sched w t m w' sched' :
  stamped w -> t <= arrivals w -> depth_since t w ->
  wait_depth w sched = Some (m, w', sched') ->
  stamped w' /\ arrivals w <= arrivals w' /\
  g_most_recent_depth_meas w' = Some m /\ t <= m /\
  (forall u, rgb_since u w -> u <= arrivals w -> rgb_since u w').
Proof.
  revert w t. induction sched as [|batch sched IH]; intros w t Hw Ht Hsince;
    simpl; destruct (g_most_recent_depth_meas w) as [m0|] eqn:Hbuf;
    try discriminate.
  - intros [= <- <- <-]. repeat split; try apply Hw; eauto.
  - intros [= <- <- <-]. repeat split; try apply Hw; eauto.
  - intros Hwait.
    destruct (deliver_facts batch w (arrivals w) Hw (le_n _))
      as (Hw1 & Hle & _ & Hd1).
    assert (Hfresh : depth_since (arrivals w) (deliver w batch)).
    { apply Hd1. intros m1 Hm1. congruence. }
    destruct (IH (deliver w batch) (arrivals w) Hw1 Hle Hfresh Hwait)
      as (Hw' & Hle' & Hbuf' & Hm & Hrgb).
    repeat split; try apply Hw'; try lia; eauto.
    intros u Hu Hule. apply Hrgb; [|lia].
    apply (deliver_facts batch w u Hw Hule), Hu.
Qed.

Lemma pop_from_RGB_buffer_facts sched w t m w' sched' :
  stamped w -> t <= arrivals w -> rgb_since t w ->
  pop_from_RGB_buffer w sched = Some (m, w', sched') ->
  stamped w' /\ arrivals w <= arrivals w' /\
  g_most_recent_rgb_meas w' = None /\ t <= m < arrivals w' /\
  (forall u, depth_since u w -> u <= arrivals w -> depth_since u w') /\
  (g_most_recent_rgb_meas w = Some m \/
   g_most_recent_rgb_meas w = None /\ arrivals w <= m).
Proof.
  intros Hw Ht Hsince. unfold pop_from_RGB_buffer.
  destruct (wait_rgb w sched) as [[[m1 w1] s1]|] eqn:Hwait; [|discriminate].
  simpl. intros [= <- <- <-].
  destruct (wait_rgb_facts _ _ _ _ _ _ Hw Ht Hsince Hwait)
    as ([Hr1 Hd1] & Hle & Hbuf & Hm & Hdep & Hold).
  repeat split; simpl; try discriminate; eauto.
Qed.

Lemma pop_from_depth_buffer_facts sched w m w' sched' :
  stamped w ->
  pop_from_depth_buffer w sched = Some (m, w', sched') ->
  stamped w' /\ arrivals w <= m < arrivals w' /\
  g_most_recent_depth_meas w' = Some m /\
  (forall u, rgb_since u w -> u <= arrivals w -> rgb_since u w').
Proof.
  intros [Hr Hd]. unfold pop_from_depth_buffer. intros Hwait.
  set (w0 := World (g_most_recent_rgb_meas w) None (arrivals w)) in *.
  assert (Hw0 : stamped w0) by (split; [exact Hr|discriminate]).
  assert (Hfresh : depth_since (arrivals w0) w0) by (intros m0; discriminate).
  destruct (wait_depth_facts _ _ _ _ _ _ Hw0 (le_n _) Hfresh Hwait)
    as (Hw' & Hle & Hbuf & Hm & Hrgb).
  change (arrivals w0) with (arrivals w) in *.
  assert (Hlt : m < arrivals w') by (destruct Hw' as [_ Hd']; apply Hd', Hbuf).
  repeat split; try apply Hw'; try lia; eauto.
Qed.

Lemma turn_right_facts w sched w' sched' :
  stamped w ->
  turn_right w sched = (w', sched') ->
  stamped w' /\ arrivals w <= arrivals w' /\
  (forall u, rgb_since u w -> u <= arrivals w -> rgb_since u w').
Proof.
  intros Hw. unfold turn_right. destruct sched as [|batch sched].
  - intros [= <- <-]. repeat split; try apply Hw; eauto.
  - intros [= <- <-].
    destruct (deliver_facts batch w 0 Hw (Nat.le_0_l _)) as (Hw' & Hle & _).
    repeat split; try apply Hw'; try lia.
    intros u Hu Hule. apply (deliver_facts batch w u Hw Hule), Hu.
Qed.

(** One capture followed by its pivot. *)
Lemma capture_facts flag sched w t rgb depth w1 sched1 w' sched' :
  stamped w -> t <= arrivals w -> rgb_since t w ->
  capture flag w sched = Some (rgb, depth, w1, sched1) ->
  turn_right w1 sched1 = (w', sched') ->
  exists t',
    stamped w' /\ t' <= arrivals w' /\ rgb_since t' w' /\
    arrivals w <= arrivals w' /\ t <= rgb < t' /\
    (flag = true ->
     exists d, depth = Some d /\ arrivals w <= d < arrivals w').
Proof.
  intros Hw Ht Hsince. unfold capture.
  destruct (pop_from_RGB_buffer w sched) as [[[m1 wa] sa]|] eqn:Hpop;
    [|discriminate].
  destruct (pop_from_RGB_buffer_facts _ _ _ _ _ _ Hw Ht Hsince Hpop)
    as (Hwa & Hlea & Hnone & Hm & _ & _).
  assert (Hfresh : rgb_since (arrivals wa) wa)
    by (intros m0 Hm0; congruence).
  simpl. destruct flag.
  - destruct (pop_from_depth_buffer wa sa) as [[[d wb] sb]|] eqn:Hdep;
      [|discriminate].
    simpl. intros [= <- <- <- <-] Hturn.
    destruct (pop_from_depth_buffer_facts _ _ _ _ _ Hwa Hdep)
      as (Hwb & Hd & _ & Hrgb).
    destruct (turn_right_facts _ _ _ _ Hwb Hturn) as (Hw' & Hle' & Hrgb').
    assert (Hs' : rgb_since (arrivals wa) w').
    { apply Hrgb'; [|lia]. apply Hrgb; [exact Hfresh|lia]. }
    exists (arrivals wa).
    split; [exact Hw'|]. split; [lia|]. split; [exact Hs'|].
    split; [lia|]. split; [lia|].
    intros _. exists d. split; [reflexivity|lia].
  - intros [= <- <- <- <-] Hturn.
    destruct (turn_right_facts _ _ _ _ Hwa Hturn) as (Hw' & Hle' & Hrgb').
    assert (Hs' : rgb_since (arrivals wa) w')
      by (apply Hrgb'; [exact Hfresh|lia]).
    exists (arrivals wa).
    split; [exact Hw'|]. split; [lia|]. split; [exact Hs'|].
    split; [lia|]. split; [lia|]. discriminate.
Qed.

(** C9, amended.  A depth capture returns a measurement that arrived after
    the capture began.  An RGB capture returns the measurement in the
    buffer when there is one, otherwise one that arrives after the capture
    began, and leaves the buffer empty.  The four RGB captures of a
    panorama return measurements in strictly increasing order of arrival,
    and so do the four depth captures: none is returned twice. *)
Theorem captures_never_reuse_a_measurement :
  (forall w sched m w' sched',
      stamped w ->
      pop_from_depth_buffer w sched = Some (m, w', sched') ->
      arrivals w <= m < arrivals w') /\
  (forall w sched m w' sched',
      stamped w ->
      pop_from_RGB_buffer w sched = Some (m, w', sched') ->
      g_most_recent_rgb_meas w' = None /\
      (g_most_recent_rgb_meas w = Some m \/
       g_most_recent_rgb_meas w = None /\ arrivals w <= m)) /\
  (forall flag w sched rgbs depths w' sched',
      stamped w ->
      get_pano_meas flag w sched = Some (rgbs, depths, w', sched') ->
      (exists r1 r2 r3 r4,
          rgbs = [r1; r2; r3; r4] /\ r1 < r2 /\ r2 < r3 /\ r3 < r4) /\
      (flag = true ->
       exists d1 d2 d3 d4,
         depths = [Some d1; Some d2; Some d3; Some d4] /\
         d1 < d2 /\ d2 < d3 /\ d3 < d4)).
Proof.
  split; [|split].
  - intros w sched m w' sched' Hw Hpop.
    apply (pop_from_depth_buffer_facts _ _ _ _ _ Hw Hpop).
  - intros w sched m w' sched' Hw Hpop.
    assert (H0 : rgb_since 0 w) by (intros m0 _; lia).
    destruct (pop_from_RGB_buffer_facts _ _ 0 _ _ _ Hw (Nat.le_0_l _) H0 Hpop)
      as (_ & _ & Hnone & _ & _ & Hold).
    split; assumption.
  - intros flag w sched rgbs depths w' sched' Hw. unfold get_pano_meas.
    destruct (capture flag w sched) as [[[[r1 d1] wa] sa]|] eqn:Hc1;
      [|discriminate]. simpl.
    destruct (turn_right wa sa) as [w1 s1] eqn:Ht1.
    destruct (capture flag w1 s1) as [[[[r2 d2] wb] sb]|] eqn:Hc2;
      [|discriminate]. simpl.
    destruct (turn_right wb sb) as [w2 s2] eqn:Ht2.
    destruct (capture flag w2 s2) as [[[[r3 d3] wc] sc]|] eqn:Hc3;
      [|discriminate]. simpl.
    destruct (turn_right wc sc) as [w3 s3] eqn:Ht3.
    destruct (capture flag w3 s3) as [[[[r4 d4] wd] sd]|] eqn:Hc4;
      [|discriminate]. simpl.
    destruct (turn_right wd sd) as [w4 s4] eqn:Ht4.
    intros [= <- <- <- <-].
    assert (H0 : rgb_since 0 w) by (intros m0 _; lia).
    destruct (capture_facts _ _ _ 0 _ _ _ _ _ _ Hw (Nat.le_0_l _) H0 Hc1 Ht1)
      as (t1 & Hw1 & Hle1 & Hs1 & Ha1 & Hr1 & Hd1).
    destruct (capture_facts _ _ _ t1 _ _ _ _ _ _ Hw1 Hle1 Hs1 Hc2 Ht2)
      as (t2 & Hw2 & Hle2 & Hs2 & Ha2 & Hr2 & Hd2).
    destruct (capture_facts _ _ _ t2 _ _ _ _ _ _ Hw2 Hle2 Hs2 Hc3 Ht3)
      as (t3 & Hw3 & Hle3 & Hs3 & Ha3 & Hr3 & Hd3).
    destruct (capture_facts _ _ _ t3 _ _ _ _ _ _ Hw3 Hle3 Hs3 Hc4 Ht4)
      as (t4 & Hw4 & Hle4 & Hs4 & Ha4 & Hr4 & Hd4).
    split.
    + exists r1, r2, r3, r4. repeat split; lia.
    + intros Hflag.
      destruct (Hd1 Hflag) as (e1 & -> & He1).
      destruct (Hd2 Hflag) as (e2 & -> & He2).
      destruct (Hd3 Hflag) as (e3 & -> & He3).
      destruct (Hd4 Hflag) as (e4 & -> & He4).
      exists e1, e2, e3, e4. repeat split; lia.
Qed.


Lemma captures_never_reuse_a_measurement_witness :
  (1 <= 1 < 2) /\
  (g_most_recent_rgb_meas (World None None 1) = None) /\
  (exists r1 r2 r3 r4,
      [0; 2; 4; 6] = [r1; r2; r3; r4] /\ r1 < r2 /\ r2 < r3 /\ r3 < r4).
Proof.
  destruct captures_never_reuse_a_measurement as (Hdepth & Hrgb & Hpano).
  assert (Hw : stamped one_frame_buffered).
  { split; simpl; intros m [= <-]; lia. }
  split; [|split].
  - apply (Hdepth one_frame_buffered [[Depth]] 1 (World (Some 0) (Some 1) 2) []
             Hw). reflexivity.
  - apply (Hrgb one_frame_buffered [] 0 (World None None 1) [] Hw). reflexivity.
  - apply (Hpano true one_frame_buffered
             [[Depth]; [RGB]; [Depth]; [RGB]; [Depth]; [RGB]; [Depth]]
             [0; 2; 4; 6] [Some 1; Some 3; Some 5; Some 7]
             (World None (Some 7) 8) [] Hw). reflexivity.
Defined.

(** Against C9 as stated: the frame that was already in the buffer when
    the capture began is the one the capture returns. *)
Lemma pop_from_RGB_buffer_returns_earlier_frame :
  arrivals one_frame_buffered = 1 /\
  pop_from_RGB_buffer one_frame_buffered [[RGB]]
  = Some (0, World None None 1, [[RGB]]) /\
  ~ arrivals one_frame_buffered <= 0.
Proof. repeat split. simpl. lia. Qed.
End BufferFacts.

Section MoreExamples.
Import PurePursuit locobot_interface.
Local Open Scope Q_scope.

Example bresenham_line_readme :
  bresenham_line (-1) (-4) 3 2
  = [(-1, -4); (0, -3); (0, -2); (1, -1); (2, 0); (2, 1); (3, 2)]%Z.
Proof. reflexivity. Qed.

(** The vehicle stands on the first waypoint of a path of three. *)
Lemma compute_command_pares_path_witness :
  path_meters
    (@compute_command example_math (Pose 0 0 0) 100 100
       (initial [(0, 0); (0.1, 0); (5, 0)])).2
  = [(0.1, 0); (5, 0)].
Proof.
  destruct (@compute_command_pares_path example_math (Pose 0 0 0) 100 100
              (initial [(0, 0); (0.1, 0); (5, 0)]))
    as (_ & _ & Hfound & _).
  apply (Hfound [] (0, 0)); [reflexivity|constructor|reflexivity].
Defined.


End MoreExamples.

Section LookaheadGeometry.
Import PurePursuit.
Context `{MathLib}.
Local Open Scope Q_scope.

Lemma dist2_along cur L p0 p1 t :
  dist2 cur (along p0 p1 t) ==
  quad_a p0 p1 * t ^ 2 + quad_b cur p0 p1 * t + quad_c cur L p0 + L ^ 2.
Proof.
  unfold dist2, along, quad_a, quad_b, quad_c. cbn [fst snd]. ring.
Qed.

Lemma quadratic_root (a b c d t : Q) (sign : Q) :
  ~ 2 * a == 0 -> d ^ 2 == b ^ 2 - 4 * a * c ->
  sign == 1 \/ sign == -1 ->
  t == (- b + sign * d) / (2 * a) ->
  a * t ^ 2 + b * t + c == 0.
Proof.
  intros Ha Hd Hs Ht.
  assert (Ha' : ~ a == 0) by (intros Hz; apply Ha; rewrite Hz; ring).
  assert (Hc : c == (b ^ 2 - d ^ 2) / (4 * a)).
  { rewrite Hd. field. exact Ha'. }
  rewrite Ht, Hc.
  destruct Hs as [-> | ->]; field; exact Ha'.
Qed.

Lemma valid_range01 q : valid q = true -> 0 <= q <= 1.
Proof.
  unfold valid. rewrite andb_true_iff, !Qle_bool_iff. tauto.
Qed.

Lemma segment_candidate_eq cur L p0 p1 :
  segment_candidate cur L p0 p1 =
  match math_sqrt (discriminant cur L p0 p1) with
  | Raise _ => Ok None
  | Ok discr =>
      q0 ← pydiv (- quad_b cur p0 p1 - discr) (2 * quad_a p0 p1);
      q1 ← pydiv (- quad_b cur p0 p1 + discr) (2 * quad_a p0 p1);
      if valid q0 then Ok (Some (along p0 p1 q0))
      else if valid q1 then Ok (Some (along p0 p1 q1))
      else Ok None
  end.
Proof. reflexivity. Qed.

Lemma segment_candidate_on_circle cur L p0 p1 pt :
  segment_candidate cur L p0 p1 = Ok (Some pt) ->
  exists t,
    0 <= t <= 1 /\ pt = along p0 p1 t /\
    (sqrt_fn (discriminant cur L p0 p1) ^ 2 == discriminant cur L p0 p1 ->
     dist2 cur pt == L ^ 2).
Proof.
  rewrite segment_candidate_eq.
  unfold math_sqrt. destruct (Qltb (discriminant cur L p0 p1) 0); [discriminate|].
  unfold pydiv. destruct (Qeq_bool (2 * quad_a p0 p1) 0) eqn:Hz; [discriminate|].
  apply Qeq_bool_neq in Hz. cbn [mbind result_bind].
  assert (Ha : ~ quad_a p0 p1 == 0) by (intros Hq; apply Hz; rewrite Hq; ring).
  set (d := sqrt_fn (discriminant cur L p0 p1)).
  set (q0 := (- quad_b cur p0 p1 - d) / (2 * quad_a p0 p1)).
  set (q1 := (- quad_b cur p0 p1 + d) / (2 * quad_a p0 p1)).
  destruct (valid q0) eqn:Hv0; [|destruct (valid q1) eqn:Hv1; [|discriminate]];
    intros [= <-].
  - exists q0. split; [apply valid_range01, Hv0|]. split; [reflexivity|].
    intros Hexact. rewrite (dist2_along cur L).
    rewrite (quadratic_root _ _ (quad_c cur L p0) d q0 (-1) Hz Hexact);
      [ring|right; reflexivity|unfold q0; field; exact Ha].
  - exists q1. split; [apply valid_range01, Hv1|]. split; [reflexivity|].
    intros Hexact. rewrite (dist2_along cur L).
    rewrite (quadratic_root _ _ (quad_c cur L p0) d q1 1 Hz Hexact);
      [ring|left; reflexivity|unfold q1; field; exact Ha].
Qed.

Lemma segment_loop_source cur L prev todo acc pt :
  segment_loop cur L prev todo acc = Ok (Some pt) ->
  acc = Some pt \/
  exists s, s ∈ segments (prev :: todo) /\
            segment_candidate cur L s.1 s.2 = Ok (Some pt).
Proof.
  revert prev acc. induction todo as [|p todo IH]; intros prev acc; simpl.
  - intros [= ->]. left. reflexivity.
  - destruct (segment_candidate cur L prev p) as [[pt'|]|] eqn:Hc; simpl;
      [| |discriminate]; intros Hloop;
      destruct (IH _ _ Hloop) as [Hacc|(s & Hs & Hcand)].
    + injection Hacc as ->. right. exists (prev, p).
      split; [rewrite segments_cons2; left|exact Hc].
    + right. exists s. split; [rewrite segments_cons2; right; exact Hs|exact Hcand].
    + left. exact Hacc.
    + right. exists s. split; [rewrite segments_cons2; right; exact Hs|exact Hcand].
Qed.

(** The lookahead point found on a path of two or more waypoints lies on
    one of its segments, and at the lookahead distance from the pose when
    the square root of that segment's discriminant is exact. *)
Theorem lookahead_point_on_path cur L p0 p1 rest pt :
  choose_lookahead_pt cur L (p0 :: p1 :: rest) = Ok (Some pt) ->
  exists s t,
    s ∈ segments (p0 :: p1 :: rest) /\ 0 <= t <= 1 /\
    pt = along s.1 s.2 t /\
    (sqrt_fn (discriminant cur L s.1 s.2) ^ 2
     == discriminant cur L s.1 s.2 ->
     dist2 cur pt == L ^ 2).
Proof.
  intros Hchoose.
  destruct (segment_loop_source cur L p0 (p1 :: rest) None pt Hchoose)
    as [Hacc|(s & Hs & Hcand)]; [discriminate|].
  destruct (segment_candidate_on_circle _ _ _ _ _ Hcand) as (t & Ht & Hpt & Hd).
  exists s, t. tauto.
Qed.
End LookaheadGeometry.

Section LookaheadGeometryExample.
Import PurePursuit.
Local Open Scope Q_scope.

Lemma lookahead_point_on_path_witness :
  exists s t,
    s ∈ segments zigzag /\ 0 <= t <= 1 /\
    ((-216 # 72, 288 # 72) : point) = along s.1 s.2 t /\
    (@sqrt_fn example_math (discriminant (Pose 0 0 0) 5 s.1 s.2) ^ 2
     == discriminant (Pose 0 0 0) 5 s.1 s.2 ->
     dist2 (Pose 0 0 0) (-216 # 72, 288 # 72) == 5 ^ 2).
Proof.
  apply (@lookahead_point_on_path example_math (Pose 0 0 0) 5).
  vm_compute. reflexivity.
Defined.
End LookaheadGeometryExample.

Section HeadingError.
Local Open Scope Q_scope.






End HeadingError.

Section LaterCalls.
Import PurePursuit.
Context `{MathLib}.
Local Open Scope Q_scope.

End LaterCalls.

Section LaterCallsExample.
Import PurePursuit.
Local Open Scope Q_scope.

End LaterCallsExample.

Section ControllerEdges.
Import PurePursuit.
Context `{MathLib}.
Local Open Scope Q_scope.

(** When the first waypoint within 0.15 m of the pose is the last one of
    the path, the command is (0, 0), the path is left empty, the PID state
    is not touched, and every later call answers (0, 0) as well. *)
Theorem compute_command_stops_at_last_waypoint cur t1 t2 st pre p :
  path_meters st = pre ++ [p] ->
  Forall (fun q => near cur q = false) pre ->
  near cur p = true ->
  compute_command cur t1 t2 st = (Ok (0, 0), set_path [] st) /\
  forall cur' t1' t2',
    compute_command cur' t1' t2' (set_path [] st)
    = (Ok (0, 0), set_path [] st).
Proof.
  intros Hpath Hpre Hp. split.
  - unfold compute_command. cbn [set_path path_meters].
    unfold pare_path. rewrite Hpath.
    rewrite pare_loop_found by (try assumption; reflexivity). reflexivity.
  - intros cur' t1' t2'. reflexivity.
Qed.

Lemma lookahead_loop_more_fuel fuel k extra cur path pt :
  (fuel + k = lookahead_fuel)%nat ->
  lookahead_loop (fuel + extra) cur path pt (radius k)
  = lookahead_loop fuel cur path pt (radius k).
Proof.
  revert k pt. induction fuel as [|fuel IH]; intros k pt Hk.
  - destruct pt as [p|]; [destruct extra; reflexivity|].
    assert (Hgt : lookahead_dist_max < radius k)
      by (apply radius_past_max; unfold lookahead_fuel in Hk; lia).
    assert (Hle : Qle_bool (radius k) lookahead_dist_max = false).
    { destruct (Qle_bool _ _) eqn:Hle; [|reflexivity].
      apply Qle_bool_iff in Hle. lra. }
    destruct extra; simpl; rewrite Hle; reflexivity.
  - destruct pt as [p|]; [reflexivity|]. simpl.
    destruct (Qle_bool (radius k) lookahead_dist_max); [|reflexivity].
    destruct (choose_lookahead_pt cur (radius k) path) as [pt'|]; [|reflexivity].
    apply (IH (S k)). lia.
Qed.

(** The search loop of [compute_command] ends after at most eleven
    searches: eleven units of fuel give its outcome, and more fuel gives
    the same. *)
Theorem lookahead_search_ends cur path :
  exists outcome,
    lookahead_loop lookahead_fuel cur path None lookahead_dist_init
    = Some outcome /\
    forall extra,
      lookahead_loop (lookahead_fuel + extra) cur path None
        lookahead_dist_init = Some outcome.
Proof.
  change lookahead_dist_init with (radius 0).
  destruct (lookahead_loop lookahead_fuel cur path None (radius 0))
    as [outcome|] eqn:Hloop.
  - exists outcome. split; [reflexivity|]. intros extra.
    rewrite lookahead_loop_more_fuel by lia. exact Hloop.
  - exfalso. eapply (lookahead_loop_fuel lookahead_fuel 0); [lia|exact Hloop].
Qed.
End ControllerEdges.

Section ControllerEdgesExample.
Import PurePursuit.
Local Open Scope Q_scope.

Lemma compute_command_stops_at_last_waypoint_witness :
  @compute_command example_math (Pose 5 0 0) 101 102
    (State [(0, 0); (5, 0)] 0 0 100)
  = (Ok (0, 0), State [] 0 0 100).
Proof.
  apply (@compute_command_stops_at_last_waypoint example_math (Pose 5 0 0)
           101 102 (State [(0, 0); (5, 0)] 0 0 100) [(0, 0)] (5, 0)).
  - reflexivity.
  - repeat constructor.
  - reflexivity.
Defined.
End ControllerEdgesExample.

Section PlannerFacts.
Import PurePursuit motion_planning_node.
Context `{MathLib}.
Local Open Scope Q_scope.

(** [plan_path_to_goal] takes the planned path anew on every call: the
    controller is left with the planned path pared at the pose, whatever
    path it held before.  Without a planned path the command is (0, 0), no
    warning, and the controller is not touched. *)
Theorem plan_path_to_goal_replaces_path cfg path veh_pose_est t1 t2 st :
  path_meters (plan_path_to_goal cfg (Some path) veh_pose_est t1 t2 st).2
  = pare_path veh_pose_est path /\
  plan_path_to_goal cfg None veh_pose_est t1 t2 st = (Ok (0, 0, false), st).
Proof.
  split; [|reflexivity].
  unfold plan_path_to_goal.
  pose proof (compute_command_path veh_pose_est t1 t2 (set_path path st))
    as Hpath.
  destruct (compute_command veh_pose_est t1 t2 (set_path path st))
    as [[[fwd ang]|e] st']; exact Hpath.
Qed.

Lemma publish_command_range cfg fwd ang :
  0 <= g_max_fwd_cmd cfg -> 0 <= g_max_ang_cmd cfg ->
  let published := publish_command cfg fwd ang in
  0 <= published.1 <= g_max_fwd_cmd cfg /\
  - g_max_ang_cmd cfg <= published.2 <= g_max_ang_cmd cfg /\
  publish_command cfg published.1 published.2 = published.
Proof.
  intros Hf Ha published. subst published.
  assert (Hal : - g_max_ang_cmd cfg <= g_max_ang_cmd cfg) by lra.
  unfold publish_command. cbn [fst snd].
  split; [apply clamp_range, Hf|]. split; [apply clamp_range, Hal|].
  rewrite (clamp_idempotent fwd _ _ Hf), (clamp_idempotent ang _ _ Hal).
  reflexivity.
Qed.

(** With non-negative limits the command [publish_command] publishes is
    within them, and publishing it again changes nothing. *)
Theorem publish_command_within_limits cfg fwd ang :
  0 <= g_max_fwd_cmd cfg -> 0 <= g_max_ang_cmd cfg ->
  let published := publish_command cfg fwd ang in
  0 <= published.1 <= g_max_fwd_cmd cfg /\
  - g_max_ang_cmd cfg <= published.2 <= g_max_ang_cmd cfg /\
  publish_command cfg published.1 published.2 = published.
Proof. apply publish_command_range. Qed.

Lemma publish_command_within_limits_witness :
  let cfg := Constraints (1 # 2) 1 in
  0 <= (publish_command cfg 7 (-7)).1 <= 1 # 2 /\
  - (1) <= (publish_command cfg 7 (-7)).2 <= 1 /\
  publish_command cfg (publish_command cfg 7 (-7)).1
    (publish_command cfg 7 (-7)).2 = publish_command cfg 7 (-7).
Proof.
  intros cfg.
  apply (publish_command_within_limits cfg 7 (-7)); vm_compute; discriminate.
Defined.
End PlannerFacts.

Section EmptyScan.
Import locobot_interface.
Context `{MathLib}.
Variable bresenham : Z -> Z -> Z -> Z -> list (Z * Z).
Variable n : nat.
Variable res : Q.
Local Open Scope Q_scope.



End EmptyScan.

Section EmptyScanExample.
Import locobot_interface.
Local Open Scope Q_scope.

End EmptyScanExample.

Section MeanOrder.
Local Open Scope Q_scope.

Lemma Forall2_py_slice {A B} (R : A -> B -> Prop) s (l : list A) (k : list B) :
  Forall2 R l k -> Forall2 R (py_slice s l) (py_slice s k).
Proof.
  intros Hlk. unfold py_slice. destruct (stop s).
  - apply Forall2_take, Forall2_drop, Hlk.
  - apply Forall2_drop, Hlk.
Qed.

Lemma block_Forall2 (R : Q -> Q -> Prop) rs cs (a b : grid) :
  Forall2 (Forall2 R) a b ->
  Forall2 (Forall2 R) (block rs cs a) (block rs cs b).
Proof.
  intros Hab. unfold block. apply Forall2_fmap.
  eapply Forall2_impl; [apply Forall2_py_slice, Hab|].
  intros row row' Hrow. apply Forall2_py_slice, Hrow.
Qed.

Lemma concat_Forall2 {A B} (R : A -> B -> Prop) (a : list (list A)) b :
  Forall2 (Forall2 R) a b -> Forall2 R (concat a) (concat b).
Proof.
  induction 1 as [|row row' a b Hrow _ IH]; simpl; [constructor|].
  apply Forall2_app; assumption.
Qed.

Lemma Qsum_le (l k : list Q) : Forall2 Qle l k -> Qsum l <= Qsum k.
Proof.
  induction 1 as [|x y l k Hxy _ IH]; [apply Qle_refl|].
  cbn [Qsum foldr]. fold (Qsum l) (Qsum k). lra.
Qed.

Lemma np_mean_le (a b : grid) mb :
  Forall2 (Forall2 Qle) a b -> np_mean b = Some mb ->
  exists ma, np_mean a = Some ma /\ ma <= mb.
Proof.
  intros Hab. apply concat_Forall2 in Hab.
  pose proof (Forall2_length _ _ _ Hab) as Hlen.
  pose proof (Qsum_le _ _ Hab) as Hsum.
  unfold np_mean.
  destruct (concat b) as [|y ys]; [discriminate|].
  destruct (concat a) as [|x xs]; [discriminate|].
  intros [= <-]. eexists. split; [reflexivity|].
  rewrite Hlen. unfold Qdiv. apply Qmult_le_compat_r; [exact Hsum|].
  apply Qinv_le_0_compat.
  change 0 with (inject_Z 0). rewrite <- Zle_Qle. lia.
Qed.
End MeanOrder.

Section WallFlagOrder.
Import locobot_interface.
Variable n : nat.
Local Open Scope Q_scope.

(** Lowering cells of a grid never clears the forward-obstruction flag. *)
Theorem detects_wall_monotone (a b : grid) :
  Forall2 (Forall2 Qle) a b ->
  detects_wall n b = true -> detects_wall n a = true.
Proof.
  intros Hab. rewrite !detects_wall_iff. intros (mb & Hmb & Hle).
  destruct (np_mean_le (front_cell_block n a) (front_cell_block n b) mb)
    as (ma & Hma & Hmale); [apply block_Forall2, Hab|exact Hmb|].
  exists ma. split; [exact Hma|]. lra.
Qed.

End WallFlagOrder.

Section WallFlagOrderExample.
Import locobot_interface.
Local Open Scope Q_scope.

(** Occupying the half-free cell of the forward window keeps the flag. *)
Lemma detects_wall_monotone_witness :
  detects_wall 2 [[1; 0]; [1; 1]] = true.
Proof.
  apply (detects_wall_monotone 2 [[1; 0]; [1; 1]] [[1; 0.5]; [1; 1]]).
  - repeat constructor; vm_compute; discriminate.
  - reflexivity.
Defined.
End WallFlagOrderExample.

Section MoreReadings.
Import locobot_interface.
Context `{MathLib}.
Variable bresenham : Z -> Z -> Z -> Z -> list (Z * Z).
Variable n : nat.
Variable res : Q.
Local Open Scope Q_scope.

Lemma hit_by_with_ranges msg readings mrp i todo rc :
  hit_by bresenham n res (with_ranges msg readings) mrp i todo rc <->
  hit_by bresenham n res msg mrp i todo rc.
Proof. reflexivity. Qed.

Lemma hit_by_app msg mrp i todo extra rc :
  hit_by bresenham n res msg mrp i todo rc ->
  hit_by bresenham n res msg mrp i (todo ++ extra) rc.
Proof.
  intros (j & x & Hj & Hv & Hin). exists j, x.
  split; [apply lookup_app_l_Some, Hj|]. tauto.
Qed.

(** Readings appended to a scan never free a cell the scan occupied. *)
Theorem get_lidar_more_readings msg extra a flag a' flag' r c :
  get_lidar bresenham n res msg = Ok (a, flag) ->
  get_lidar bresenham n res (with_ranges msg (ranges msg ++ extra))
  = Ok (a', flag') ->
  (r < n)%nat -> (c < n)%nat ->
  cell a r c = Some 0 -> cell a' r c = Some 0.
Proof.
  intros Hget Hget' Hr Hc Hcell.
  assert (Hres : ~ res == 0).
  { intros Hz. unfold get_lidar, pydiv in Hget.
    rewrite (Qeq_eq_bool _ _ Hz) in Hget. discriminate. }
  destruct (get_lidar_cells bresenham n res msg Hres) as (b & Hb & _ & Hcells).
  destruct (get_lidar_cells bresenham n res
              (with_ranges msg (ranges msg ++ extra)) Hres)
    as (b' & Hb' & _ & Hcells').
  rewrite Hget in Hb. injection Hb as <- _.
  rewrite Hget' in Hb'. injection Hb' as <- _.
  apply (Hcells' r c Hr Hc). apply hit_by_with_ranges.
  cbn [ranges range_max with_ranges]. apply hit_by_app.
  apply (Hcells r c Hr Hc), Hcell.
Qed.
End MoreReadings.

Section MoreReadingsExample.
Import locobot_interface.
Local Open Scope Q_scope.

Lemma get_lidar_more_readings_witness :
  exists a' flag',
    @get_lidar example_math bresenham_line 8 1
      (with_ranges two_beams (ranges two_beams ++ [1])) = Ok (a', flag') /\
    cell a' 4 1 = Some 0.
Proof.
  eexists _, _. split; [vm_compute; reflexivity|].
  eapply (@get_lidar_more_readings example_math bresenham_line 8 1 two_beams
            [1] _ _ _ _ 4%nat 1%nat);
    [vm_compute; reflexivity|vm_compute; reflexivity|lia|lia|reflexivity].
Defined.
End MoreReadingsExample.

Section AssignFacts.
Local Open Scope Q_scope.

Lemma assign_shape rs cs v rows cols (a : grid) :
  has_shape rows cols a -> has_shape rows cols (assign rs cs v a).
Proof.
  intros [Hlen Hrows]. split; [rewrite assign_length; exact Hlen|].
  apply Forall_lookup. intros i row' Hrow'.
  rewrite assign_row_lookup in Hrow'.
  destruct (a !! i) as [row|] eqn:Hrow; [|discriminate].
  injection Hrow' as <-.
  assert (Hl : length row = cols).
  { eapply Forall_lookup_1 in Hrows; [exact Hrows|exact Hrow]. }
  destruct (in_slice rs i); [rewrite length_imap|]; exact Hl.
Qed.

Lemma block_assign_same rs cs v (a : grid) :
  block rs cs (assign rs cs v a)
  = (fun row : list Q => (fun _ : Q => v) <$> row) <$> block rs cs a.
Proof.
  unfold block. apply list_eq. intros i.
  rewrite !list_lookup_fmap, !py_slice_lookup.
  destruct (in_slice rs (start rs + i)) eqn:Hrow; [|reflexivity].
  rewrite assign_row_lookup, Hrow.
  destruct (a !! (start rs + i)%nat) as [row|]; [|reflexivity].
  simpl. f_equal. apply list_eq. intros j.
  rewrite list_lookup_fmap, !py_slice_lookup.
  destruct (in_slice cs (start cs + j)) eqn:Hcol; [|reflexivity].
  rewrite list_lookup_imap, Hcol.
  destruct (row !! (start cs + j)%nat); reflexivity.
Qed.

Lemma concat_const_nonempty {A} (v : A) (a : list (list A)) :
  concat a <> [] -> concat ((fun row : list A => (fun _ : A => v) <$> row) <$> a) <> [].
Proof.
  induction a as [|row a IH]; [tauto|]. simpl.
  destruct row as [|x row]; simpl; [exact IH|discriminate].
Qed.

Lemma grid_ext (a b : grid) :
  length a = length b -> (forall r c, cell a r c = cell b r c) -> a = b.
Proof.
  intros Hlen Hcells. apply list_eq. intros r.
  destruct (a !! r) as [ra|] eqn:Ha, (b !! r) as [rb|] eqn:Hb.
  - f_equal. apply list_eq. intros c.
    specialize (Hcells r c). unfold cell in Hcells.
    rewrite Ha, Hb in Hcells. exact Hcells.
  - apply lookup_lt_Some in Ha. apply lookup_ge_None in Hb. lia.
  - apply lookup_lt_Some in Hb. apply lookup_ge_None in Ha. lia.
  - reflexivity.
Qed.
End AssignFacts.

Section CornerRepairAlgebra.
Import runner_node.
Local Open Scope Q_scope.

Lemma repair_block_shape rs cs rows cols a :
  has_shape rows cols a -> has_shape rows cols (repair_block rs cs a).
Proof.
  intros Ha. rewrite repair_block_eq.
  destruct (crowdedb rs cs a); [apply assign_shape|]; exact Ha.
Qed.

Lemma repair_block_length rs cs a : length (repair_block rs cs a) = length a.
Proof.
  rewrite repair_block_eq.
  destruct (crowdedb rs cs a); [apply assign_length|reflexivity].
Qed.

Lemma corner_repair_length a : length (corner_repair a) = length a.
Proof. unfold corner_repair. cbv zeta. rewrite !repair_block_length. reflexivity. Qed.

(** The corner repair keeps the shape of the grid, and a cell either
    keeps its value or becomes 0. *)
Theorem corner_repair_only_occupies rows cols a :
  has_shape rows cols a ->
  has_shape rows cols (corner_repair a) /\
  forall r c,
    cell (corner_repair a) r c = cell a r c \/
    (is_Some (cell a r c) /\ cell (corner_repair a) r c = Some 0).
Proof.
  intros Ha. split.
  - unfold corner_repair. cbv zeta. repeat apply repair_block_shape. exact Ha.
  - intros r c. rewrite corner_repair_cell.
    destruct (cell a r c) as [x|]; [|left; reflexivity].
    cbn [fmap option_fmap option_map].
    destruct (existsb _ _); [right|left; reflexivity].
    split; [eexists; reflexivity|reflexivity].
Qed.

Lemma corner_repair_only_occupies_witness :
  has_shape 30 30 (corner_repair tenth_occupied) /\
  forall r c,
    cell (corner_repair tenth_occupied) r c = cell tenth_occupied r c \/
    (is_Some (cell tenth_occupied r c) /\
     cell (corner_repair tenth_occupied) r c = Some 0).
Proof.
  apply corner_repair_only_occupies. split; [reflexivity|].
  unfold tenth_occupied. repeat constructor.
Defined.

Lemma crowdedb_repair_same rs cs a :
  crowdedb rs cs (repair_block rs cs a) = crowdedb rs cs a.
Proof.
  rewrite repair_block_eq. destruct (crowdedb rs cs a) eqn:Hcr; [|exact Hcr].
  unfold crowdedb in *. rewrite block_assign_same.
  destruct (np_mean (block rs cs a)) as [m|] eqn:Hm; [|discriminate].
  destruct (np_mean_const
              ((fun row : list Q => (fun _ : Q => 0) <$> row) <$> block rs cs a) 0)
    as (m0 & -> & Hm0).
  - apply Forall_fmap, Forall_true. intros row. simpl.
    apply Forall_fmap, Forall_true. intros x. simpl. reflexivity.
  - apply concat_const_nonempty. intros Hnil.
    apply np_mean_nan in Hnil. congruence.
  - apply Qle_bool_iff. unfold occ_thresh. rewrite Hm0. discriminate.
Qed.

Lemma crowdedb_corner_repair a rs cs :
  (rs, cs) ∈ corners (length a) ->
  crowdedb rs cs (corner_repair a) = crowdedb rs cs a.
Proof.
  pose proof (thirds_le (length a)) as Hle.
  unfold corner_repair, corners.
  change ((3 - 1) * length a / 3)%nat with (2 * length a / 3)%nat.
  set (one_third := (length a / 3)%nat) in *.
  set (two_thirds := (2 * length a / 3)%nat) in *.
  cbv zeta. intros Hin.
  repeat (apply elem_of_cons in Hin as [[= -> ->]|Hin]);
    [..|apply not_elem_of_nil in Hin; contradiction];
    repeat first
      [ rewrite crowdedb_repair_same
      | rewrite repair_block_apart
          by (first [ left; intros i; apply upto_from_apart; exact Hle
                    | left; intros i; apply from_upto_apart; exact Hle
                    | right; intros i; apply upto_from_apart; exact Hle
                    | right; intros i; apply from_upto_apart; exact Hle ]) ];
    reflexivity.
Qed.

(** Repairing the corners twice is the same as repairing them once. *)
Theorem corner_repair_idempotent a :
  corner_repair (corner_repair a) = corner_repair a.
Proof.
  apply grid_ext; [apply corner_repair_length|].
  intros r c. rewrite (corner_repair_cell (corner_repair a)).
  rewrite corner_repair_length.
  assert (Htest :
    existsb (fun '(rs, cs) =>
               crowdedb rs cs (corner_repair a) &&
               (in_slice rs r && in_slice cs c)) (corners (length a))
    = existsb (fun '(rs, cs) =>
                 crowdedb rs cs a && (in_slice rs r && in_slice cs c))
        (corners (length a))).
  { assert (Hall : forall b, b ∈ corners (length a) ->
              crowdedb b.1 b.2 (corner_repair a) = crowdedb b.1 b.2 a)
      by (intros [rs cs]; apply crowdedb_corner_repair).
    revert Hall. generalize (corners (length a)).
    induction l as [|[rs cs] l IH]; intros Hall; [reflexivity|].
    cbn [existsb].
    assert (Hb : crowdedb rs cs (corner_repair a) = crowdedb rs cs a)
      by (apply (Hall (rs, cs)); left).
    rewrite Hb, IH; [reflexivity|]. intros b' Hb'. apply Hall. right. exact Hb'. }
  rewrite Htest, corner_repair_cell. clear Htest.
  destruct (cell a r c) as [x|]; [|reflexivity].
  cbn [fmap option_fmap option_map].
  destruct (existsb _ _); reflexivity.
Qed.
End CornerRepairAlgebra.

Section MergeFacts.
Import runner_node.
Local Open Scope Q_scope.

Lemma np_min2_cell (a b : grid) r c x y :
  cell a r c = Some x -> cell b r c = Some y ->
  cell (np_min2 a b) r c = Some (Qmin x y).
Proof.
  unfold cell, np_min2. rewrite lookup_zip_with.
  destruct (a !! r) as [ra|]; [|discriminate].
  destruct (b !! r) as [rb|]; [|discriminate].
  simpl. intros Hx Hy. rewrite lookup_zip_with, Hx, Hy. reflexivity.
Qed.

(** A cell of the panoramic occupancy is at most the cell of each of the
    four aligned views (all non-negative), so it is 0 as soon as one view
    has 0 there. *)
Theorem pano_local_occ_occupied_wins
    (rotate_image_to_north : grid -> Q -> grid)
    (east south west north : grid) r c xe xs xw xn :
  cell east r c = Some xe ->
  cell (rotate_image_to_north south 0) r c = Some xs ->
  cell (rotate_image_to_north west (- pi / 2)) r c = Some xw ->
  cell (rotate_image_to_north north pi) r c = Some xn ->
  0 <= xe -> 0 <= xs -> 0 <= xw -> 0 <= xn ->
  exists y,
    cell (pano_local_occ rotate_image_to_north east south west north) r c
    = Some y /\
    0 <= y /\ y <= xe /\ y <= xs /\ y <= xw /\ y <= xn /\
    (xe == 0 \/ xs == 0 \/ xw == 0 \/ xn == 0 -> y == 0).
Proof.
  intros He Hs Hw Hn He0 Hs0 Hw0 Hn0. unfold pano_local_occ.
  rewrite corner_repair_cell.
  rewrite (np_min2_cell _ _ r c _ xn
             (np_min2_cell _ _ r c _ xw (np_min2_cell _ _ r c _ _ He Hs) Hw) Hn).
  cbn [fmap option_fmap option_map].
  set (m := Qmin (Qmin (Qmin xe xs) xw) xn).
  assert (Hm : 0 <= m /\ m <= xe /\ m <= xs /\ m <= xw /\ m <= xn).
  { subst m.
    pose proof (Q.le_min_l (Qmin (Qmin xe xs) xw) xn).
    pose proof (Q.le_min_r (Qmin (Qmin xe xs) xw) xn).
    pose proof (Q.le_min_l (Qmin xe xs) xw).
    pose proof (Q.le_min_r (Qmin xe xs) xw).
    pose proof (Q.le_min_l xe xs). pose proof (Q.le_min_r xe xs).
    split; [|lra].
    repeat apply Q.min_glb; assumption. }
  destruct (existsb _ _); eexists; (split; [reflexivity|]); lra.
Qed.

(** The front view sees an obstacle at the centre cell of a 3 x 3 grid;
    the other three views see it free. *)
Lemma pano_local_occ_occupied_wins_witness :
  exists y,
    cell (pano_local_occ (fun a _ => a)
            [[1; 1; 1]; [1; 0; 1]; [1; 1; 1]] (np_ones 3 3) (np_ones 3 3)
            (np_ones 3 3)) 1 1 = Some y /\
    0 <= y /\ y <= 0 /\ y <= 1 /\ y <= 1 /\ y <= 1 /\
    (0 == 0 \/ 1 == 0 \/ 1 == 0 \/ 1 == 0 -> y == 0).
Proof.
  apply (pano_local_occ_occupied_wins (fun a _ => a)
           [[1; 1; 1]; [1; 0; 1]; [1; 1; 1]] (np_ones 3 3) (np_ones 3 3)
           (np_ones 3 3) 1 1 0 1 1 1);
    first [reflexivity | vm_compute; discriminate].
Defined.
End MergeFacts.

Section BlockingFacts.
Import runner_node.

Lemma callback_rgb w s :
  g_most_recent_rgb_meas (callback w s) = None <->
  g_most_recent_rgb_meas w = None /\ s <> RGB.
Proof. destruct s; simpl; split; intros; try tauto; try easy; split; congruence. Qed.

Lemma callback_depth w s :
  g_most_recent_depth_meas (callback w s) = None <->
  g_most_recent_depth_meas w = None /\ s <> Depth.
Proof. destruct s; simpl; split; intros; try tauto; try easy; split; congruence. Qed.

Lemma deliver_rgb batch w :
  g_most_recent_rgb_meas (deliver w batch) = None <->
  g_most_recent_rgb_meas w = None /\ RGB ∉ batch.
Proof.
  revert w. induction batch as [|s batch IH]; intros w; simpl.
  - split; [intros Hw; split; [exact Hw|apply not_elem_of_nil]|tauto].
  - fold (deliver (callback w s) batch). rewrite IH, callback_rgb, not_elem_of_cons.
    split; intros; destruct_and?; repeat split; congruence.
Qed.

Lemma deliver_depth batch w :
  g_most_recent_depth_meas (deliver w batch) = None <->
  g_most_recent_depth_meas w = None /\ Depth ∉ batch.
Proof.
  revert w. induction batch as [|s batch IH]; intros w; simpl.
  - split; [intros Hw; split; [exact Hw|apply not_elem_of_nil]|tauto].
  - fold (deliver (callback w s) batch). rewrite IH, callback_depth, not_elem_of_cons.
    split; intros; destruct_and?; repeat split; congruence.
Qed.

Lemma wait_rgb_blocks sched w :
  wait_rgb w sched = None <->
  g_most_recent_rgb_meas w = None /\
  Forall (fun batch => RGB ∉ batch) sched.
Proof.
  revert w. induction sched as [|batch sched IH]; intros w; simpl;
    destruct (g_most_recent_rgb_meas w) as [m|] eqn:Hbuf.
  - split; [discriminate|intros [? _]; discriminate].
  - split; [intros _; split; [reflexivity|constructor]|reflexivity].
  - split; [discriminate|intros [? _]; discriminate].
  - rewrite IH, deliver_rgb, Forall_cons. rewrite Hbuf. tauto.
Qed.

Lemma wait_depth_blocks sched w :
  wait_depth w sched = None <->
  g_most_recent_depth_meas w = None /\
  Forall (fun batch => Depth ∉ batch) sched.
Proof.
  revert w. induction sched as [|batch sched IH]; intros w; simpl;
    destruct (g_most_recent_depth_meas w) as [m|] eqn:Hbuf.
  - split; [discriminate|intros [? _]; discriminate].
  - split; [intros _; split; [reflexivity|constructor]|reflexivity].
  - split; [discriminate|intros [? _]; discriminate].
  - rewrite IH, deliver_depth, Forall_cons. rewrite Hbuf. tauto.
Qed.

(** An RGB capture waits for ever exactly when its buffer is empty and no
    RGB frame arrives any more; a depth capture exactly when no depth
    measurement arrives any more, whatever its buffer held. *)
Theorem captures_block_until_arrival w sched :
  (pop_from_RGB_buffer w sched = None <->
   g_most_recent_rgb_meas w = None /\
   Forall (fun batch => RGB ∉ batch) sched) /\
  (pop_from_depth_buffer w sched = None <->
   Forall (fun batch => Depth ∉ batch) sched).
Proof.
  split.
  - rewrite <- wait_rgb_blocks. unfold pop_from_RGB_buffer.
    destruct (wait_rgb w sched) as [[[m w'] s']|]; simpl;
      split; congruence.
  - unfold pop_from_depth_buffer. rewrite wait_depth_blocks. simpl. tauto.
Qed.
End BlockingFacts.

Section ConfigFacts.
Import runner_node.

(** The configuration [set_global_params] builds never has two sources of
    ground truth: the simulator excludes LiDAR and depth, LiDAR excludes
    depth, and fusing LiDAR with RGB needs the model and excludes both the
    simulator and LiDAR ground truth; a known yaw is assumed in the
    discrete run modes only. *)
Theorem set_global_params_exclusive g defaults mode use_sim use_viz :
  let config := set_global_params g defaults mode use_sim use_viz in
  (enable_sim config = true ->
   use_lidar_as_ground_truth config = false /\
   use_depth_as_ground_truth config = false /\
   fuse_lidar_with_rgb config = false) /\
  (use_lidar_as_ground_truth config = true ->
   use_depth_as_ground_truth config = false /\
   fuse_lidar_with_rgb config = false) /\
  (fuse_lidar_with_rgb config = true -> enable_ml_model config = true) /\
  (assume_yaw_is_known config = true -> py_in "discrete" mode = true) /\
  (mode ∈ g_run_modes ->
   assume_yaw_is_known config
   = g_discrete_assume_yaw_is_known g && negb (String.eqb mode "continuous")).
Proof.
  intros config. subst config. cbn.
  destruct g as [ml loc lidar fuse depth yaw goal]. cbn.
  repeat split.
  - destruct lidar, use_sim; intros; try reflexivity; discriminate.
  - destruct depth, lidar, use_sim; intros; try reflexivity; discriminate.
  - destruct fuse, lidar, use_sim, ml; intros; try reflexivity; discriminate.
  - destruct depth, lidar, use_sim; intros; try reflexivity; discriminate.
  - destruct fuse, lidar, use_sim, ml; intros; try reflexivity; discriminate.
  - destruct fuse, lidar, use_sim, ml; intros; try reflexivity; discriminate.
  - destruct yaw; [simpl; tauto|discriminate].
  - unfold g_run_modes. intros Hmode.
    repeat (apply elem_of_cons in Hmode as [->|Hmode]);
      [..|apply not_elem_of_nil in Hmode; contradiction];
      destruct yaw; reflexivity.
Qed.
End ConfigFacts.

Section BeliefFacts.
Import cmn_visualizer.
Local Open Scope Q_scope.







End BeliefFacts.

Section ConfigExample.
Import runner_node.

(** LiDAR ground truth and depth ground truth both asked for, on the robot. *)
Lemma set_global_params_exclusive_witness :
  let config :=
    set_global_params (Params true true true true true true None)
      (Build_CmnConfig "" false false false false false false false false
         false None)
      "discrete_random" false true in
  use_depth_as_ground_truth config = false /\
  fuse_lidar_with_rgb config = false /\
  assume_yaw_is_known config = true.
Proof.
  intros config.
  destruct (set_global_params_exclusive
              (Params true true true true true true None)
              (Build_CmnConfig "" false false false false false false false
                 false false None)
              "discrete_random" false true)
    as (_ & Hlidar & _ & _ & Hmode).
  destruct (Hlidar eq_refl) as [Hd Hf].
  split; [exact Hd|]. split; [exact Hf|].
  subst config. rewrite Hmode; [reflexivity|].
  unfold g_run_modes. right. right. left.
Defined.
End ConfigExample.

Section LocalizationCallback.
Import PurePursuit motion_planning_node.
Context `{MathLib}.
Local Open Scope Q_scope.

(** The first call of a controller, as [compute_command] runs it. *)
Lemma compute_command_fresh cur t1 t2 st :
  last_time st == 0 ->
  pare_path cur (path_meters st) <> [] ->
  (compute_command cur t1 t2 st).1 = Raise ZeroDivisionError.
Proof.
  intros Hfirst Hpath. unfold compute_command. simpl.
  destruct (pare_path cur (path_meters st)) as [|p0 rest]; [congruence|].
  destruct (lookahead_target cur p0 rest) as [pt|e] eqn:Ht; simpl.
  - unfold remainder.
    replace (Qeq_bool tau 0) with false by reflexivity.
    rewrite (Qeq_eq_bool _ _ Hfirst). simpl. reflexivity.
  - f_equal. eapply lookahead_target_raise, Ht.
Qed.

(** [get_localization_est] with non-negative limits: without a goal it
    publishes the limits themselves; with a goal and no planned path it
    publishes (0, 0); whatever it publishes is within the limits; and with
    a controller that was never called and a planned path that is not
    empty after paring it raises before it publishes. *)
Theorem get_localization_est_publishes cfg pose_est t1 t2 st :
  0 <= g_max_fwd_cmd cfg -> 0 <= g_max_ang_cmd cfg ->
  get_localization_est cfg None pose_est t1 t2 st
  = (Ok (g_max_fwd_cmd cfg, g_max_ang_cmd cfg), st) /\
  get_localization_est cfg (Some None) pose_est t1 t2 st
  = (Ok (0, 0), st) /\
  (forall goal cmd st',
      get_localization_est cfg goal pose_est t1 t2 st = (Ok cmd, st') ->
      0 <= cmd.1 <= g_max_fwd_cmd cfg /\
      - g_max_ang_cmd cfg <= cmd.2 <= g_max_ang_cmd cfg) /\
  (forall path,
      last_time st == 0 -> pare_path pose_est path <> [] ->
      (get_localization_est cfg (Some (Some path)) pose_est t1 t2 st).1
      = Raise ZeroDivisionError).
Proof.
  intros Hf Ha.
  assert (Hal : - g_max_ang_cmd cfg <= g_max_ang_cmd cfg) by lra.
  split; [|split; [|split]].
  - unfold get_localization_est, publish_command.
    rewrite !clamp_inside by lra. reflexivity.
  - unfold get_localization_est, plan_path_to_goal, publish_command.
    rewrite !clamp_inside by lra. reflexivity.
  - intros goal cmd st' Hget.
    assert (Hpub : exists fwd ang, cmd = publish_command cfg fwd ang).
    { unfold get_localization_est in Hget. destruct goal as [planned|].
      - destruct (plan_path_to_goal cfg planned pose_est t1 t2 st)
          as [[[[fwd ang] warned]|e] st1]; [|discriminate].
        injection Hget as <- _. eauto.
      - injection Hget as <- _. eauto. }
    destruct Hpub as (fwd & ang & ->).
    destruct (publish_command_range cfg fwd ang Hf Ha) as (H1 & H2 & _).
    split; assumption.
  - intros path Hfirst Hpath.
    unfold get_localization_est, plan_path_to_goal.
    pose proof (compute_command_fresh pose_est t1 t2 (set_path path st)
                  Hfirst Hpath) as Hraise.
    destruct (compute_command pose_est t1 t2 (set_path path st))
      as [[[fwd ang]|e] st1]; simpl in Hraise; [discriminate|].
    simpl. exact Hraise.
Qed.
End LocalizationCallback.

Section LocalizationCallbackExample.
Import PurePursuit motion_planning_node.
Local Open Scope Q_scope.

Lemma get_localization_est_publishes_witness :
  let cfg := Constraints (1 # 2) 1 in
  @get_localization_est cfg example_math None (Pose 0 0 0) 100 100 (initial [])
  = (Ok (1 # 2, 1), initial []) /\
  (@get_localization_est cfg example_math (Some (Some [(1, 0)])) (Pose 0 0 0)
     100 100 (initial [])).1 = Raise ZeroDivisionError.
Proof.
  intros cfg.
  destruct (@get_localization_est_publishes example_math cfg (Pose 0 0 0)
              100 100 (initial []))
    as (Hnone & _ & _ & Hfresh); [vm_compute; discriminate..|].
  split; [exact Hnone|].
  apply Hfresh; [reflexivity|vm_compute; discriminate].
Defined.
End LocalizationCallbackExample.
